(** * AnyDictionary and its MutationStamp (opentimelineio/anyDictionary.h)

    A shallow embedding of [class AnyDictionary] and of its nested
    [struct MutationStamp].  Both kinds of object live in a store indexed by
    address, because a dictionary and its stamp point at each other and the
    same dictionary may be passed twice to one call ([a.swap(a)]).

    A member function is a function from stores to [option]: [None] stands
    for a call that does not complete normally, which is either undefined
    behaviour (a dead object is used, an invalid iterator is erased, the
    signed 64-bit counter overflows) or a thrown exception. *)

From stdpp Require Import gmap strings list fin_maps sorting.
From Stdlib Require Import ZArith.

Local Open Scope Z_scope.

(** Addresses of objects; a nullable pointer is an [option addr]. *)
Abbreviation addr := positive (only parsing).

(** [int64_t]: signed overflow of [stamp++] is undefined behaviour. *)
Definition INT64_MAX : Z := 9223372036854775807.

Definition int64_incr (z : Z) : option Z :=
  if decide (z < INT64_MAX) then Some (z + 1) else None.

(** [std::string]'s [operator<], the key order of the map. *)
Definition key_lt (a b : string) : bool := Stdlib.Strings.String.ltb a b.
Definition key_le (a b : string) : bool := Stdlib.Strings.String.leb a b.

Section AnyDictionary.

(** The universe of C++ types that an [any] can hold, the representation
    of their values and [std::type_info::hash_code] are parameters. *)
Context {type_info payload : Type} `{!EqDecision type_info}.
Variable hash_code : type_info → Z.

(** Modelled from the spec: [any] of [opentimelineio/any.h], which is not
    among the sources.  It is "an opaque value that can hold one of several
    payload types and supports type-identity queries and copy": the type of
    what it holds, and the value. *)
Record any := mk_any { any_type : type_info; any_value : payload }.

(** Modelled from the spec: [any_cast<T>] of [opentimelineio/any.h], which
    decodes the value when the stored type is [T]; [None] is the
    [bad_any_cast] it throws otherwise. *)
Definition any_cast (T : type_info) (a : any) : option payload :=
  if decide (any_type a = T) then Some (any_value a) else None.

(** ** The two classes *)

Record MutationStamp := mk_stamp {
  stamp : Z;
  any_dictionary : option addr;
  owning : bool
}.

(** [map] is the private base [std::map<std::string, any>]. *)
Record AnyDictionary := mk_dict {
  map : gmap string any;
  _mutation_stamp : option addr
}.

Record heap := mk_heap {
  dicts : gmap positive AnyDictionary;
  stamps : gmap positive MutationStamp
}.

Definition empty_heap : heap := mk_heap ∅ ∅.

Definition put_dict (c : addr) (d : AnyDictionary) (h : heap) : heap :=
  mk_heap (<[c := d]> (dicts h)) (stamps h).

Definition put_stamp (s : addr) (m : MutationStamp) (h : heap) : heap :=
  mk_heap (dicts h) (<[s := m]> (stamps h)).

(** Writes to the base sub-object of [this]; [_mutation_stamp] is kept. *)
Definition map_assign (this : addr) (m : gmap string any) (h : heap)
  : option heap :=
  d ← dicts h !! this;
  Some (put_dict this (mk_dict m (_mutation_stamp d)) h).

(** ** [mutate], lines 277-283 *)
Definition mutate (this : addr) (h : heap) : option heap :=
  d ← dicts h !! this;
  match _mutation_stamp d with
  | Some s =>
      m ← stamps h !! s;
      n ← int64_incr (stamp m);
      Some (put_stamp s (mk_stamp n (any_dictionary m) (owning m)) h)
  | None => Some h
  end.

(** ** Constructors and destructor, lines 35-60 *)

(** [AnyDictionary()] placed at the unused address [this]. *)
Definition construct (this : addr) (h : heap) : option heap :=
  match dicts h !! this with
  | Some _ => None
  | None => Some (put_dict this (mk_dict ∅ None) h)
  end.

(** [AnyDictionary(const AnyDictionary& other)] placed at [this]:
    [map(other)], [_mutation_stamp{}]. *)
Definition copy_construct (this other : addr) (h : heap) : option heap :=
  o ← dicts h !! other;
  match dicts h !! this with
  | Some _ => None
  | None => Some (put_dict this (mk_dict (map o) None) h)
  end.

(** The body of [~AnyDictionary()]. *)
Definition dtor_body (this : addr) (h : heap) : option heap :=
  d ← dicts h !! this;
  match _mutation_stamp d with
  | Some s =>
      m ← stamps h !! s;
      Some (put_stamp s (mk_stamp (-1) None (owning m)) h)
  | None => Some h
  end.

(** What follows the body: the base and the object itself go away. *)
Definition release (this : addr) (h : heap) : heap :=
  mk_heap (delete this (dicts h)) (stamps h).

Definition destroy (this : addr) (h : heap) : option heap :=
  h1 ← dtor_body this h;
  Some (release this h1).

(** ** Assignment, lines 62-82 *)

Definition copy_assign (this other : addr) (h : heap) : option heap :=
  h1 ← mutate this h;
  o ← dicts h1 !! other;
  map_assign this (map o) h1.

(** [other] is a named reference, hence an lvalue: [map::operator=(other)]
    is the copy assignment of the base and [other] keeps its elements. *)
Definition move_assign (this other : addr) (h : heap) : option heap :=
  h1 ← mutate this h;
  h2 ← mutate other h1;
  o ← dicts h2 !! other;
  map_assign this (map o) h2.

(** The first of several equal keys of the list is the one kept. *)
Definition ilist_assign (this : addr) (ilist : list (string * any))
  (h : heap) : option heap :=
  h1 ← mutate this h;
  map_assign this (list_to_map ilist) h1.

(** ** Modifiers, lines 98-130.  An iterator is the key it points at, and
    [None] is [end()]; the iterators returned by [erase] are not modelled. *)

Definition clear (this : addr) (h : heap) : option heap :=
  h1 ← mutate this h;
  map_assign this ∅ h1.

(** [insert], [emplace], [emplace_hint] are the base's: a key that is
    present is left alone. *)
Definition map_insert (key : string) (v : any) (m : gmap string any)
  : gmap string any :=
  match m !! key with
  | Some _ => m
  | None => <[key := v]> m
  end.

Definition insert (this : addr) (key : string) (v : any) (h : heap)
  : option heap :=
  d ← dicts h !! this;
  map_assign this (map_insert key v (map d)) h.

(** [this->operator[](key) = v], with the base's [operator[]]. *)
Definition subscript_assign (this : addr) (key : string) (v : any)
  (h : heap) : option heap :=
  d ← dicts h !! this;
  map_assign this (<[key := v]> (map d)) h.

(** [erase(pos)]: [pos] has to be dereferenceable. *)
Definition erase_pos (this : addr) (pos : string) (h : heap) : option heap :=
  h1 ← mutate this h;
  d ← dicts h1 !! this;
  _ ← map d !! pos;
  map_assign this (delete pos (map d)) h1.

Definition valid_iterator (m : gmap string any) (it : option string) : bool :=
  match it with
  | Some k => bool_decide (is_Some (m !! k))
  | None => true
  end.

Definition in_range (first last : option string) (k : string) : bool :=
  match first with
  | Some f => key_le f k && match last with Some l => key_lt k l | None => true end
  | None => false
  end.

Definition valid_range (m : gmap string any) (first last : option string)
  : bool :=
  valid_iterator m first && valid_iterator m last &&
  match first, last with
  | Some f, Some l => key_le f l
  | None, Some _ => false
  | _, None => true
  end.

(** [erase(first, last)]: [[first, last)] has to be a range of [*this]. *)
Definition erase_range (this : addr) (first last : option string) (h : heap)
  : option heap :=
  h1 ← mutate this h;
  d ← dicts h1 !! this;
  if valid_range (map d) first last
  then map_assign this
         (filter (λ kv, in_range first last kv.1 = false) (map d)) h1
  else None.

(** [erase(key)] returns the number of elements removed. *)
Definition erase_key (this : addr) (key : string) (h : heap)
  : option (nat * heap) :=
  h1 ← mutate this h;
  d ← dicts h1 !! this;
  h2 ← map_assign this (delete key (map d)) h1;
  Some (if map d !! key is Some _ then 1%nat else 0%nat, h2).

(** [map::swap(other)] exchanges the base sub-objects only. *)
Definition swap (this other : addr) (h : heap) : option heap :=
  h1 ← mutate this h;
  h2 ← mutate other h1;
  a ← dicts h2 !! this;
  b ← dicts h2 !! other;
  h3 ← map_assign this (map b) h2;
  map_assign other (map a) h3.

(** ** [get_if_set] and [set_default], lines 137-189

    [containedType] is the template argument [T]; the slot [result] is
    [None] for [nullptr] and holds the [T] it points at otherwise.  Both
    functions touch the base sub-object only, so they are given over it;
    the outer [option] is [None] when [any_cast] throws. *)

Definition get_if_set (T : type_info) (key : string) (result : option payload)
  (this : gmap string any) : option (bool * option payload) :=
  match result with
  | None => Some (false, result)
  | Some _ =>
      match this !! key with
      | Some a =>
          if (hash_code (any_type a) =? hash_code T)%Z
          then x ← any_cast T a; Some (true, Some x)
          else Some (false, result)
      | None => Some (false, result)
      end
  end.

Definition has_key (key : string) (this : gmap string any) : bool :=
  bool_decide (is_Some (this !! key)).

Definition set_default (T : type_info) (key : string) (result : option payload)
  (this : gmap string any)
  : option (bool * option payload * gmap string any) :=
  match result with
  | None => Some (false, result, this)
  | Some r =>
      match this !! key with
      | Some a =>
          if (hash_code (any_type a) =? hash_code T)%Z
          then x ← any_cast T a; Some (true, Some x, this)
          else Some (false, result, map_insert key (mk_any T r) this)
      | None => Some (false, result, map_insert key (mk_any T r) this)
      end
  end.

(** ** [MutationStamp], lines 220-259, and its creation, lines 261-270 *)

(** [new MutationStamp(this)]; [p] is the address [new] hands out. *)
Definition get_or_create_mutation_stamp (this p : addr) (h : heap)
  : option (addr * heap) :=
  d ← dicts h !! this;
  match _mutation_stamp d with
  | Some s => Some (s, h)
  | None =>
      match stamps h !! p with
      | Some _ => None
      | None =>
          Some (p, put_dict this (mk_dict (map d) (Some p))
                     (put_stamp p (mk_stamp 1 (Some this) false) h))
      end
  end.

(** The protected [MutationStamp()] placed at [p]; [c] is the address of
    its [new AnyDictionary]. *)
Definition new_owning_stamp (p c : addr) (h : heap) : option heap :=
  match stamps h !! p, dicts h !! c with
  | None, None =>
      Some (put_dict c (mk_dict ∅ (Some p))
              (put_stamp p (mk_stamp 1 (Some c) true) h))
  | _, _ => None
  end.

(** [~MutationStamp()], after which the stamp itself goes away. *)
Definition destroy_stamp (s : addr) (h : heap) : option heap :=
  m ← stamps h !! s;
  h2 ← match any_dictionary m with
       | Some c =>
           d ← dicts h !! c;
           let h1 := put_dict c (mk_dict (map d) None) h in
           if owning m then destroy c h1 else Some h1
       | None => Some h
       end;
  Some (mk_heap (dicts h2) (delete s (stamps h2))).

(** ** Calls and runs *)

Inductive op :=
  | Construct (this : addr)
  | CopyConstruct (this other : addr)
  | Destroy (this : addr)
  | CopyAssign (this other : addr)
  | MoveAssign (this other : addr)
  | IlistAssign (this : addr) (ilist : list (string * any))
  | Clear (this : addr)
  | Insert (this : addr) (key : string) (v : any)
  | SubscriptAssign (this : addr) (key : string) (v : any)
  | ErasePos (this : addr) (pos : string)
  | EraseRange (this : addr) (first last : option string)
  | EraseKey (this : addr) (key : string)
  | Swap (this other : addr)
  | Find (this : addr) (key : string)
  | Traverse (this : addr)
  | GetIfSet (this : addr) (T : type_info) (key : string)
      (result : option payload)
  | SetDefault (this : addr) (T : type_info) (key : string)
      (result : option payload)
  | GetOrCreateMutationStamp (this p : addr)
  | NewOwningStamp (p c : addr)
  | DestroyStamp (s : addr).

(** [find], [count], [has_key], [begin] ... [end], [size]: they read a
    live dictionary. *)
Definition read_only (this : addr) (h : heap) : option heap :=
  _ ← dicts h !! this; Some h.

Definition step (o : op) (h : heap) : option heap :=
  match o with
  | Construct this => construct this h
  | CopyConstruct this other => copy_construct this other h
  | Destroy this => destroy this h
  | CopyAssign this other => copy_assign this other h
  | MoveAssign this other => move_assign this other h
  | IlistAssign this ilist => ilist_assign this ilist h
  | Clear this => clear this h
  | Insert this key v => insert this key v h
  | SubscriptAssign this key v => subscript_assign this key v h
  | ErasePos this pos => erase_pos this pos h
  | EraseRange this first last => erase_range this first last h
  | EraseKey this key => snd <$> erase_key this key h
  | Swap this other => swap this other h
  | Find this _ => read_only this h
  | Traverse this => read_only this h
  | GetIfSet this T key result =>
      d ← dicts h !! this;
      _ ← get_if_set T key result (map d);
      Some h
  | SetDefault this T key result =>
      d ← dicts h !! this;
      r ← set_default T key result (map d);
      map_assign this r.2 h
  | GetOrCreateMutationStamp this p =>
      snd <$> get_or_create_mutation_stamp this p h
  | NewOwningStamp p c => new_owning_stamp p c h
  | DestroyStamp s => destroy_stamp s h
  end.

Fixpoint run (ops : list op) (h : heap) : option heap :=
  match ops with
  | [] => Some h
  | o :: ops' => h1 ← step o h; run ops' h1
  end.

(** ** What an observer reads *)

(** The [_mutation_stamp] of a live dictionary. *)
Definition stamp_ptr (h : heap) (c : addr) : option (option addr) :=
  _mutation_stamp <$> dicts h !! c.

Definition contents (h : heap) (c : addr) : option (gmap string any) :=
  map <$> dicts h !! c.

(** The fields of a live stamp. *)
Definition counter (h : heap) (s : addr) : option Z :=
  stamp <$> stamps h !! s.

Definition back_ref (h : heap) (s : addr) : option (option addr) :=
  any_dictionary <$> stamps h !! s.

Definition is_owning (h : heap) (s : addr) : option bool :=
  owning <$> stamps h !! s.

(** ** The link between a dictionary and its stamp *)

(** An attached stamp carries a counter from 1 to [INT64_MAX]; a detached
    one is a tombstone. *)
Definition counter_ok (m : MutationStamp) : Prop :=
  match any_dictionary m with
  | Some _ => 1 ≤ stamp m ≤ INT64_MAX
  | None => stamp m = -1
  end.

(** A dictionary and its stamp point at each other, so a stamp is
    attached to at most one dictionary. *)
Record wf (h : heap) : Prop := mk_wf {
  wf_dict : ∀ c d s,
    dicts h !! c = Some d → _mutation_stamp d = Some s →
    ∃ m, stamps h !! s = Some m ∧ any_dictionary m = Some c;
  wf_stamp : ∀ s m c,
    stamps h !! s = Some m → any_dictionary m = Some c →
    ∃ d, dicts h !! c = Some d ∧ _mutation_stamp d = Some s;
  wf_counter : ∀ s m,
    stamps h !! s = Some m → counter_ok m
}.

(** ** Counting the calls of [mutate] *)

(** The number of times a call runs [mutate] on the dictionary [c]. *)
Definition mutate_calls (c : addr) (o : op) : nat :=
  match o with
  | CopyAssign this _ | IlistAssign this _ | Clear this | ErasePos this _
  | EraseRange this _ _ | EraseKey this _ =>
      if decide (this = c) then 1 else 0
  | MoveAssign this other | Swap this other =>
      (if decide (this = c) then 1 else 0) +
      (if decide (other = c) then 1 else 0)
  | _ => 0
  end.

Definition total_mutate_calls (c : addr) (ops : list op) : nat :=
  foldr (λ o n, mutate_calls c o + n)%nat 0%nat ops.

(** The call ends neither the dictionary [c] nor the stamp [s]. *)
Definition keeps (c s : addr) (o : op) : bool :=
  match o with
  | Destroy this => negb (bool_decide (this = c))
  | DestroyStamp s' => negb (bool_decide (s' = s))
  | _ => true
  end.

Definition watches (h : heap) (c s : addr) (n : Z) : Prop :=
  ∃ d m, dicts h !! c = Some d ∧ _mutation_stamp d = Some s ∧
         stamps h !! s = Some m ∧ stamp m = n.

(** The call does not end the stamp [s]. *)
Definition keeps_stamp (s : addr) (o : op) : bool :=
  match o with
  | DestroyStamp s' => negb (bool_decide (s' = s))
  | _ => true
  end.

(** The store that a list of calls builds from nothing. *)
Definition build (ops : list op) : heap :=
  default empty_heap (run ops empty_heap).

(** ** The sentences of the specification that are compared with the code *)

(** The invalidating calls of the specification (assignment of the whole
    container, [clear], the three [erase], [swap]), each counted once for
    a dictionary that takes part in it. *)
Definition invalidating_calls (c : addr) (o : op) : nat :=
  match o with
  | CopyAssign this _ | IlistAssign this _ | Clear this | ErasePos this _
  | EraseRange this _ _ | EraseKey this _ =>
      if decide (this = c) then 1 else 0
  | MoveAssign this other | Swap this other =>
      if decide (this = c ∨ other = c) then 1 else 0
  | _ => 0
  end.

Definition total_invalidating_calls (c : addr) (ops : list op) : nat :=
  foldr (λ o n, invalidating_calls c o + n)%nat 0%nat ops.

(** The call does not have [c] as both of its operands. *)
Definition no_self_alias (c : addr) (o : op) : bool :=
  match o with
  | MoveAssign this other | Swap this other =>
      negb (bool_decide (this = c ∧ other = c))
  | _ => true
  end.

(** The terminal state of a stamp. *)
Definition tombstoned (h : heap) (s : addr) : Prop :=
  counter h s = Some (-1) ∧ back_ref h s = Some None.

(** "[swap] must exchange the attached-stamp pointers". *)
Definition stamp_pointers_exchanged (h : heap) (a b : addr) (h' : heap)
  : Prop :=
  stamp_ptr h' a = stamp_ptr h b ∧ stamp_ptr h' b = stamp_ptr h a.

(** "each stamp's back-reference points at the container that now holds
    the data it was watching": [s] watched [c] before the call. *)
Definition back_ref_follows_data (h : heap) (c s : addr) (h' : heap) : Prop :=
  ∃ c', back_ref h' s = Some (Some c') ∧ contents h' c' = contents h c.

(** "if the key is present with a matching type". *)
Definition key_matches (T : type_info) (key : string)
  (this : gmap string any) : Prop :=
  ∃ a, this !! key = Some a ∧ any_type a = T.

(** "otherwise inserts the value at the key and reports that it was not
    set", after which the map holds the key with the given value. *)
Definition set_default_otherwise_stores (T : type_info) (key : string)
  (r : payload) (this : gmap string any) : Prop :=
  ¬ key_matches T key this →
  ∃ this', set_default T key (Some r) this = Some (false, Some r, this') ∧
           this' !! key = Some (mk_any T r).

End AnyDictionary.

(** * A small universe of contained types, for concrete stores *)

Inductive cpp_type := t_bool | t_int64 | t_string.

#[global] Instance cpp_type_eq_dec : EqDecision cpp_type.
Proof. solve_decision. Defined.

Definition cpp_hash (t : cpp_type) : Z :=
  match t with t_bool => 11 | t_int64 => 12 | t_string => 13 end.

Inductive cpp_value := v_bool (b : bool) | v_int64 (z : Z) | v_string (s : string).

Definition any_bool (b : bool) : any := mk_any t_bool (v_bool b).
Definition any_int64 (z : Z) : any := mk_any t_int64 (v_int64 z).
Definition any_string (s : string) : any := mk_any t_string (v_string s).

(** Two dictionaries, at 1 and 2, with their stamps at 10 and 20. *)
Definition demo_setup : list op :=
  [ Construct 1; Insert 1 "a" (any_int64 1); Insert 1 "b" (any_int64 2);
    GetOrCreateMutationStamp 1 10;
    Construct 2; Insert 2 "z" (any_bool true);
    GetOrCreateMutationStamp 2 20 ].

Definition demo_heap : heap := build cpp_hash demo_setup.

(** A stamp in owning mode at 30, its dictionary at 3. *)
Definition demo_owning_heap : heap :=
  build cpp_hash (demo_setup ++ [NewOwningStamp 30 3]).

Definition demo_map : gmap string any :=
  {[ "a" := any_int64 1; "b" := any_int64 2 ]}.

(** Calls on the dictionary at 1, five of which run [mutate] on it, the
    move assignment to the dictionary at 2 among them. *)
Definition demo_calls : list op :=
  [ Find 1 "a"; Insert 1 "c" (any_string "x"); EraseKey 1 "a";
    SetDefault 1 t_bool "d" (Some (v_bool false));
    GetIfSet 1 t_int64 "b" (Some (v_int64 0));
    Swap 1 2; MoveAssign 2 1; Traverse 1; ErasePos 1 "z";
    SubscriptAssign 1 "b" (any_int64 7); Clear 1;
    GetOrCreateMutationStamp 1 11 ].

Definition demo_after : heap :=
  default empty_heap (run cpp_hash demo_calls demo_heap).

(** [a.swap(a)] on the dictionary at 1. *)
Definition self_swap_calls : list (@op cpp_type cpp_value) := [Swap 1 1].

Definition demo_self_swap : heap :=
  default empty_heap (run cpp_hash self_swap_calls demo_heap).

Definition demo_swapped : heap :=
  default empty_heap (swap 1 2 demo_heap).

Definition demo_moved : heap :=
  default empty_heap (move_assign 1 2 demo_heap).

(** * More about the calls of the class *)

Section Calls.
Context {type_info payload : Type}.


End Calls.

(** * The conversions of the Python bindings (otio_utils.cpp) *)

(** What a call ends with: the value it returns or the C++ exception it
    throws. *)
Inductive exception := runtime_error | value_error | type_error | cast_error.

Inductive outcome (A : Type) := Returns (a : A) | Throws (e : exception).
Arguments Returns {A} a.
Arguments Throws {A} e.

(** ** [compare_typeids], lines 20-22 *)

Section CompareTypeids.

(** The characters that a [char const*] points at. *)
Variable c_str : addr → string.

(** [strcmp]; of a result that is not 0 only the sign is specified. *)
Definition strcmp (s1 s2 : addr) : Z :=
  match Stdlib.Strings.String.compare (c_str s1) (c_str s2) with
  | Eq => 0
  | Lt => -1
  | Gt => 1
  end.

(** Of a [std::type_info] the function uses the pointer that [name()]
    returns. *)
Record std_type_info := mk_type_info { name : addr }.

Definition compare_typeids (lhs rhs : std_type_info) : bool :=
  (name lhs =? name rhs)%positive || (strcmp (name lhs) (name rhs) =? 0).

End CompareTypeids.

(** ** The [py::int_] branch of [py_to_any2], lines 117-135 *)

Inductive int_type := int32_t | int64_t | uint32_t | uint64_t.

Definition int_min (T : int_type) : Z :=
  match T with
  | int32_t => - 2 ^ 31
  | int64_t => - 2 ^ 63
  | uint32_t | uint64_t => 0
  end.

Definition int_max (T : int_type) : Z :=
  match T with
  | int32_t => 2 ^ 31 - 1
  | int64_t => 2 ^ 63 - 1
  | uint32_t => 2 ^ 32 - 1
  | uint64_t => 2 ^ 64 - 1
  end.

(** [py_to_any3<T>(py::int_ const& o)], lines 173-176, is [o.cast<T>()];
    [o] is the unbounded Python integer, and pybind11 throws [cast_error]
    when it does not fit [T]. *)
Definition py_to_any3_int (T : int_type) (o : Z) : outcome Z :=
  if decide (int_min T ≤ o ≤ int_max T) then Returns o else Throws cast_error.

(** [try { return any(x); } catch (...) {}] followed by the rest. *)
Definition try_return {A B : Type} (x : outcome A) (f : A → B)
  (rest : outcome B) : outcome B :=
  match x with
  | Returns a => Returns (f a)
  | Throws _ => rest
  end.

Definition py_to_any2_int (o : Z) : outcome (@any int_type Z) :=
  try_return (py_to_any3_int int32_t o) (mk_any int32_t) $
  try_return (py_to_any3_int int64_t o) (mk_any int64_t) $
  try_return (py_to_any3_int uint32_t o) (mk_any uint32_t) $
  try_return (py_to_any3_int uint64_t o) (mk_any uint64_t) $
  Throws runtime_error.

(** ** [py_to_any3(py::dict const&)], lines 186-201 *)

Section PyDict.
Context {type_info payload py_object : Type}.

(** [py::isinstance<py::str>] and, for a [str], [cast<std::string>()]. *)
Variable isinstance_str : py_object → bool.
Variable cast_string : py_object → string.

(** [py_to_any2], the conversion of one value; it is the caller of the
    function and the function calls it back. *)
Variable py_to_any2 : py_object → outcome (@any type_info payload).

(** The loop over the items of the [dict], in their order; [d] is the
    base of the local [AnyDictionary]. *)
Fixpoint py_to_any3_dict_loop (o : list (py_object * py_object))
  (d : gmap string any) : outcome (gmap string any) :=
  match o with
  | [] => Returns d
  | it :: o' =>
      if isinstance_str it.1
      then match py_to_any2 it.2 with
           | Returns v => py_to_any3_dict_loop o' (<[cast_string it.1 := v]> d)
           | Throws e => Throws e
           end
      else Throws value_error
  end.

(** The [AnyDictionary] that is returned was default constructed. *)
Definition py_to_any3_dict (o : list (py_object * py_object))
  : outcome AnyDictionary :=
  match py_to_any3_dict_loop o ∅ with
  | Returns d => Returns (mk_dict d None)
  | Throws e => Throws e
  end.

(** An item of the [dict] that converts to the pair [kv]. *)
Definition converts (it : py_object * py_object)
  (kv : string * @any type_info payload) : Prop :=
  isinstance_str it.1 = true ∧ cast_string it.1 = kv.1 ∧
  py_to_any2 it.2 = Returns kv.2.

End PyDict.

(** ** [any_to_py] and its two tables, lines 24-25, 51-95 and 227-245 *)

Section Dispatch.
Context {any_t py_object : Type}.

(** [a.type()], as the address of the [std::type_info] object, and the
    string that [name()] of the object at an address gives. *)
Variable type_of : any_t → addr.
Variable type_name : addr → string.

Definition handler : Type := any_t → bool → outcome py_object.

Record dispatch := mk_dispatch {
  _py_cast_dispatch_table : gmap positive handler;
  _py_cast_dispatch_table_by_name : gmap string handler
}.

(** The order in which a [std::map] keyed by pointers is run through. *)
Definition by_address (x y : positive * handler) : Prop :=
  (x.1 ≤ y.1)%positive.

#[local] Instance by_address_dec : RelDecision by_address.
Proof. intros x y. unfold by_address. apply _. Defined.

(** [_build_any_to_py_dispatch_table]: the assignments [t[&typeid(X)] =
    ...], whose right-hand sides are the parameter [entries], and then
    the loop over [t], which a [std::map] runs through in the order of
    its keys. *)
Definition _build_any_to_py_dispatch_table (entries : list (addr * handler))
  (g : dispatch) : dispatch :=
  let t := foldl (λ t e, <[e.1 := e.2]> t) (_py_cast_dispatch_table g)
             entries in
  mk_dispatch t
    (foldl (λ n e, <[type_name e.1 := e.2]> n)
       (_py_cast_dispatch_table_by_name g)
       (merge_sort by_address (map_to_list t))).

Definition any_to_py (a : any_t) (top_level : bool) (g : dispatch)
  : outcome py_object * dispatch :=
  let tInfo := type_of a in
  let t :=
    match _py_cast_dispatch_table g !! tInfo with
    | Some _ => _py_cast_dispatch_table g
    | None =>
        match _py_cast_dispatch_table_by_name g !! type_name tInfo with
        | Some backup_e => <[tInfo := backup_e]> (_py_cast_dispatch_table g)
        | None => _py_cast_dispatch_table g
        end
    end in
  let g' := mk_dispatch t (_py_cast_dispatch_table_by_name g) in
  match t !! tInfo with
  | None => (Throws value_error, g')
  | Some e => (e a top_level, g')
  end.

(** The tables after [_build_any_to_py_dispatch_table] has run on the
    empty tables the program starts with. *)
Definition built (entries : list (addr * handler)) : dispatch :=
  _build_any_to_py_dispatch_table entries (mk_dispatch ∅ ∅).

End Dispatch.

(** ** Concrete Python objects and tables, for examples *)

Inductive demo_py := py_none | py_str (s : string) | py_int (z : Z).

Definition demo_isinstance_str (o : demo_py) : bool :=
  match o with py_str _ => true | _ => false end.

Definition demo_cast_string (o : demo_py) : string :=
  match o with py_str s => s | _ => "" end.

Definition demo_py_to_any2 (o : demo_py) : outcome (@any int_type Z) :=
  match o with
  | py_int z => py_to_any2_int z
  | _ => Throws value_error
  end.

Definition demo_dict : list (demo_py * demo_py) :=
  [ (py_str "a", py_int 1); (py_str "b", py_int (2 ^ 40));
    (py_str "a", py_int 3) ].

Definition demo_dict_converted : list (string * @any int_type Z) :=
  [ ("a", mk_any int32_t 1); ("b", mk_any int64_t (2 ^ 40));
    ("a", mk_any int32_t 3) ].

(** Two registered types, at 1 and 2; the [std::type_info] at 5 is a
    second object for the type at 1, the one at 9 is of another type. *)
Definition demo_type_name (p : addr) : string :=
  match p with
  | 1%positive | 5%positive => "AnyDictionary"
  | 2%positive => "bool"
  | _ => "float"
  end.

Definition demo_entries : list (addr * @handler positive nat) :=
  [ (1%positive, λ _ _, Returns 100%nat); (2%positive, λ _ _, Returns 200%nat) ].

(** * Every call keeps the link *)

Ltac heap_lookup :=
  repeat first
    [ progress simplify_eq/=
    | match goal with
      | H : context [<[_ := _]> _ !! _] |- _ =>
          rewrite lookup_insert in H; case_decide
      | H : context [delete _ _ !! _] |- _ =>
          rewrite lookup_delete in H; case_decide
      end ].

Ltac inv_bind :=
  repeat match goal with
    | H : _ ≫= _ = Some _ |- _ => apply bind_Some in H as (? & ? & H)
    | H : _ <$> _ = Some _ |- _ => apply fmap_Some in H as (? & H & ?)
    | H : (if ?b then _ else None) = Some _ |- _ =>
        destruct b eqn:?; [|discriminate H]
    end.

Section Invariant.
Context {type_info payload : Type} `{!EqDecision type_info}.
Variable hash_code : type_info → Z.

Abbreviation heap := (@heap type_info payload).
Abbreviation op := (@op type_info payload).
Abbreviation any := (@any type_info payload).
Implicit Types (h : heap) (o : op) (ops : list op).
Implicit Types (T : type_info) (r : payload) (result : option payload).

Lemma wf_empty : wf (empty_heap : heap).
Proof. split; simpl; intros *; by rewrite lookup_empty. Qed.

Lemma int64_incr_Some z n : int64_incr z = Some n → n = z + 1 ∧ z < INT64_MAX.
Proof. unfold int64_incr. case_decide; naive_solver. Qed.

Lemma wf_map_assign h h' this m :
  wf h → map_assign this m h = Some h' → wf h'.
Proof.
  intros [W1 W2 W3] E. unfold map_assign in E. simplify_option_eq.
  split; simpl.
  - intros c d s Hc Hs. heap_lookup; eauto.
  - intros s m0 c Hs Hm. destruct (W2 _ _ _ Hs Hm) as (d & Hd & Hp).
    destruct (decide (this = c)) as [->|].
    + rewrite lookup_insert_eq. simplify_eq. eauto.
    + rewrite lookup_insert_ne by done. eauto.
  - done.
Qed.

Lemma wf_mutate h h' this : wf h → mutate this h = Some h' → wf h'.
Proof.
  intros [W1 W2 W3] E. unfold mutate in E.
  destruct (dicts h !! this) as [d|] eqn:Hd; simplify_eq/=.
  destruct (_mutation_stamp d) as [s|] eqn:Hs; simplify_eq/=; [|by split].
  destruct (stamps h !! s) as [m|] eqn:Hm; simplify_eq/=.
  destruct (int64_incr (stamp m)) as [n|] eqn:Hn; simplify_eq/=.
  apply int64_incr_Some in Hn as [-> Hlt].
  destruct (W1 _ _ _ Hd Hs) as (m' & Hm' & Hback). simplify_eq.
  specialize (W3 _ _ Hm) as Hc. unfold counter_ok in Hc. rewrite Hback in Hc.
  split; simpl.
  - intros c d' s' Hc' Hs'. destruct (W1 _ _ _ Hc' Hs') as (m1 & Hm1 & Hb1).
    destruct (decide (s = s')) as [->|].
    + rewrite lookup_insert_eq. simplify_eq. eauto.
    + rewrite lookup_insert_ne by done. eauto.
  - intros s' m1 c Hs' Hb. heap_lookup; eauto.
  - intros s' m1 Hs'. heap_lookup; [|by eauto].
    unfold counter_ok; simpl. rewrite Hback. lia.
Qed.

Lemma wf_construct h h' this : wf h → construct this h = Some h' → wf h'.
Proof.
  intros [W1 W2 W3] E. unfold construct in E.
  destruct (dicts h !! this) eqn:Hd; simplify_eq.
  split; simpl.
  - intros c d s Hc Hs. heap_lookup; eauto.
  - intros s m c Hs Hm. destruct (W2 _ _ _ Hs Hm) as (d & Hd' & Hp).
    rewrite lookup_insert_ne by congruence. eauto.
  - done.
Qed.

Lemma wf_copy_construct h h' this other :
  wf h → copy_construct this other h = Some h' → wf h'.
Proof.
  intros [W1 W2 W3] E. unfold copy_construct in E.
  destruct (dicts h !! other) as [o|]; simplify_eq/=.
  destruct (dicts h !! this) eqn:Hd; simplify_eq.
  split; simpl.
  - intros c d s Hc Hs. heap_lookup; eauto.
  - intros s m c Hs Hm. destruct (W2 _ _ _ Hs Hm) as (d & Hd' & Hp).
    rewrite lookup_insert_ne by congruence. eauto.
  - done.
Qed.

Lemma wf_one_dict h c1 c2 d1 d2 s :
  wf h →
  dicts h !! c1 = Some d1 → _mutation_stamp d1 = Some s →
  dicts h !! c2 = Some d2 → _mutation_stamp d2 = Some s →
  c1 = c2.
Proof.
  intros [W1 _ _] H1 P1 H2 P2.
  destruct (W1 _ _ _ H1 P1) as (m1 & ? & ?).
  destruct (W1 _ _ _ H2 P2) as (m2 & ? & ?). congruence.
Qed.

Lemma wf_one_stamp h s1 s2 m1 m2 c :
  wf h →
  stamps h !! s1 = Some m1 → any_dictionary m1 = Some c →
  stamps h !! s2 = Some m2 → any_dictionary m2 = Some c →
  s1 = s2.
Proof.
  intros [_ W2 _] H1 P1 H2 P2.
  destruct (W2 _ _ _ H1 P1) as (d1 & ? & ?).
  destruct (W2 _ _ _ H2 P2) as (d2 & ? & ?). congruence.
Qed.

Lemma wf_destroy h h' this : wf h → destroy this h = Some h' → wf h'.
Proof.
  intros W E. unfold destroy, dtor_body in E.
  destruct (dicts h !! this) as [d|] eqn:Hd; simplify_eq/=.
  destruct (_mutation_stamp d) as [s|] eqn:Hs; simplify_eq/=.
  - destruct (stamps h !! s) as [m|] eqn:Hm; simplify_eq/=.
    destruct (wf_dict _ W _ _ _ Hd Hs) as (m' & ? & Hback). simplify_eq.
    split; simpl.
    + intros c d' s' Hc Hs'. heap_lookup.
      destruct (wf_dict _ W _ _ _ Hc Hs') as (m1 & Hm1 & Hb1).
      assert (s ≠ s') by (intros ->; congruence).
      rewrite lookup_insert_ne by done. eauto.
    + intros s' m1 c Hs' Hb. heap_lookup.
      destruct (wf_stamp _ W _ _ _ Hs' Hb) as (d1 & Hd1 & Hp1).
      assert (this ≠ c) by (intros ->; congruence).
      rewrite lookup_delete_ne by done. eauto.
    + intros s' m1 Hs'. heap_lookup; [done|]. by eapply wf_counter.
  - split; simpl.
    + intros c d' s' Hc Hs'. heap_lookup. by eapply wf_dict.
    + intros s' m1 c Hs' Hb.
      destruct (wf_stamp _ W _ _ _ Hs' Hb) as (d1 & Hd1 & Hp1).
      assert (this ≠ c) by (intros ->; congruence).
      rewrite lookup_delete_ne by done. eauto.
    + intros s' m1 Hs'. by eapply wf_counter.
Qed.

Lemma wf_get_or_create_mutation_stamp h h' this p s :
  wf h → get_or_create_mutation_stamp this p h = Some (s, h') → wf h'.
Proof.
  intros W E. unfold get_or_create_mutation_stamp in E.
  destruct (dicts h !! this) as [d|] eqn:Hd; simplify_eq/=.
  destruct (_mutation_stamp d) as [s0|] eqn:Hs; simplify_eq/=; [done|].
  destruct (stamps h !! p) as [?|] eqn:Hp; simplify_eq/=.
  split; simpl.
  - intros c d' s' Hc Hs'. heap_lookup.
    + rewrite lookup_insert_eq. eauto.
    + destruct (wf_dict _ W _ _ _ Hc Hs') as (m1 & Hm1 & Hb1).
      assert (s ≠ s') by (intros ->; congruence).
      rewrite lookup_insert_ne by done. eauto.
  - intros s' m1 c Hs' Hb. heap_lookup.
    + rewrite lookup_insert_eq. eauto.
    + destruct (wf_stamp _ W _ _ _ Hs' Hb) as (d1 & Hd1 & Hp1).
      assert (this ≠ c) by (intros ->; congruence).
      rewrite lookup_insert_ne by done. eauto.
  - intros s' m1 Hs'. heap_lookup; [|by eapply wf_counter].
    unfold counter_ok, INT64_MAX; simpl. lia.
Qed.

Lemma wf_new_owning_stamp h h' p c :
  wf h → new_owning_stamp p c h = Some h' → wf h'.
Proof.
  intros W E. unfold new_owning_stamp in E.
  destruct (stamps h !! p) as [?|] eqn:Hp; simplify_eq/=.
  destruct (dicts h !! c) as [?|] eqn:Hc; simplify_eq/=.
  split; simpl.
  - intros c' d' s' Hc' Hs'. heap_lookup.
    + rewrite lookup_insert_eq. eauto.
    + destruct (wf_dict _ W _ _ _ Hc' Hs') as (m1 & Hm1 & Hb1).
      assert (p ≠ s') by (intros ->; congruence).
      rewrite lookup_insert_ne by done. eauto.
  - intros s' m1 c' Hs' Hb. heap_lookup.
    + rewrite lookup_insert_eq. eauto.
    + destruct (wf_stamp _ W _ _ _ Hs' Hb) as (d1 & Hd1 & Hp1).
      assert (c ≠ c') by (intros ->; congruence).
      rewrite lookup_insert_ne by done. eauto.
  - intros s' m1 Hs'. heap_lookup; [|by eapply wf_counter].
    unfold counter_ok, INT64_MAX; simpl. lia.
Qed.

Lemma wf_destroy_stamp h h' s : wf h → destroy_stamp s h = Some h' → wf h'.
Proof.
  intros W E. unfold destroy_stamp in E.
  destruct (stamps h !! s) as [m|] eqn:Hm; simplify_eq/=.
  destruct (any_dictionary m) as [c|] eqn:Hback; simplify_eq/=.
  - destruct (wf_stamp _ W _ _ _ Hm Hback) as (d & Hd & Hp).
    rewrite Hd in E; simpl in E.
    assert (Hother : ∀ c' d' s', c ≠ c' →
      dicts h !! c' = Some d' → _mutation_stamp d' = Some s' →
      ∃ m1, delete s (stamps h) !! s' = Some m1 ∧ any_dictionary m1 = Some c').
    { intros c' d' s' Hne Hc' Hs'.
      destruct (wf_dict _ W _ _ _ Hc' Hs') as (m1 & Hm1 & Hb1).
      assert (s ≠ s') by (intros ->; congruence).
      rewrite lookup_delete_ne by done. eauto. }
    destruct (owning m).
    + unfold destroy, dtor_body in E; simpl in E.
      rewrite lookup_insert_eq in E; simplify_eq/=.
      split; simpl.
      * intros c' d' s' Hc' Hs'. heap_lookup. eauto.
      * intros s' m1 c' Hs' Hb. heap_lookup.
        destruct (wf_stamp _ W _ _ _ Hs' Hb) as (d1 & Hd1 & Hp1).
        assert (c ≠ c') by (intros ->; congruence).
        rewrite lookup_delete_ne, lookup_insert_ne by done. eauto.
      * intros s' m1 Hs'. heap_lookup. by eapply wf_counter.
    + simplify_eq/=. split; simpl.
      * intros c' d' s' Hc' Hs'. heap_lookup. eauto.
      * intros s' m1 c' Hs' Hb. heap_lookup.
        destruct (wf_stamp _ W _ _ _ Hs' Hb) as (d1 & Hd1 & Hp1).
        assert (c ≠ c') by (intros ->; congruence).
        rewrite lookup_insert_ne by done. eauto.
      * intros s' m1 Hs'. heap_lookup. by eapply wf_counter.
  - split; simpl.
    + intros c' d' s' Hc' Hs'.
      destruct (wf_dict _ W _ _ _ Hc' Hs') as (m1 & Hm1 & Hb1).
      assert (s ≠ s') by (intros ->; congruence).
      rewrite lookup_delete_ne by done. eauto.
    + intros s' m1 c' Hs' Hb. heap_lookup. by eapply wf_stamp.
    + intros s' m1 Hs'. heap_lookup. by eapply wf_counter.
Qed.

Ltac wf_chain :=
  repeat match goal with
    | W : wf ?h, E : mutate _ ?h = Some _ |- _ =>
        pose proof (wf_mutate _ _ _ W E); clear E
    | W : wf ?h, E : map_assign _ _ ?h = Some _ |- _ =>
        pose proof (wf_map_assign _ _ _ _ W E); clear E
    end.

Lemma wf_step o h h' : wf h → step hash_code o h = Some h' → wf h'.
Proof.
  intros W E. destruct o; simpl in E;
    unfold copy_assign, move_assign, ilist_assign, clear, insert,
      subscript_assign, erase_pos, erase_range, erase_key, swap,
      read_only in E;
    inv_bind; simplify_eq; wf_chain; try assumption.
  - by eapply wf_construct.
  - by eapply wf_copy_construct.
  - by eapply wf_destroy.
  - destruct x. by eapply wf_get_or_create_mutation_stamp.
  - by eapply wf_new_owning_stamp.
  - by eapply wf_destroy_stamp.
Qed.

Lemma wf_run ops : ∀ h h', wf h → run hash_code ops h = Some h' → wf h'.
Proof.
  induction ops as [|o ops IH]; simpl; intros h h' W E.
  - by simplify_eq.
  - inv_bind. eauto using wf_step.
Qed.

(** Every store built by calls from nothing is linked. *)
Lemma wf_reachable ops (h : heap) :
  run hash_code ops empty_heap = Some h → wf h.
Proof. apply wf_run, wf_empty. Qed.

Lemma wf_build ops : wf (build hash_code ops).
Proof.
  unfold build. destruct (run hash_code ops empty_heap) eqn:E; simpl.
  - by eapply wf_reachable.
  - apply wf_empty.
Qed.

Lemma watches_read h c s n :
  watches h c s n ↔ stamp_ptr h c = Some (Some s) ∧ counter h s = Some n.
Proof.
  unfold watches, stamp_ptr, counter. split.
  - intros (d & m & Hd & Hp & Hm & Hn). rewrite Hd, Hm; simpl.
    by rewrite Hp, Hn.
  - intros [(d & Hd & ?)%fmap_Some (m & Hm & ?)%fmap_Some]. eauto 10.
Qed.

Lemma watches_map_assign h h' c s n this m :
  watches h c s n → map_assign this m h = Some h' → watches h' c s n.
Proof.
  intros (d & m0 & Hd & Hp & Hm & Hn) E. unfold map_assign in E.
  inv_bind. simplify_eq. unfold watches; simpl.
  destruct (decide (this = c)) as [->|].
  - rewrite lookup_insert_eq. simplify_eq. eauto 10.
  - rewrite lookup_insert_ne by done. eauto 10.
Qed.

Lemma watches_mutate h h' c s n this :
  wf h → watches h c s n → mutate this h = Some h' →
  watches h' c s (n + Z.of_nat (if decide (this = c) then 1 else 0)).
Proof.
  intros W (d & m & Hd & Hp & Hm & Hn) E. unfold mutate in E.
  destruct (dicts h !! this) as [d'|] eqn:Hd'; simplify_eq/=.
  destruct (_mutation_stamp d') as [s'|] eqn:Hs'; simplify_eq/=.
  - destruct (stamps h !! s') as [m'|] eqn:Hm'; simplify_eq/=.
    destruct (int64_incr (stamp m')) as [k|] eqn:Hk; simplify_eq/=.
    apply int64_incr_Some in Hk as [-> _].
    unfold watches; simpl. case_decide as Hc.
    + simplify_eq. rewrite lookup_insert_eq. eauto 10.
    + assert (s' ≠ s) by (intros ->; eauto using wf_one_dict).
      rewrite lookup_insert_ne by done.
      exists d, m. by rewrite Z.add_0_r.
  - exists d, m. case_decide; simplify_eq; by rewrite ?Z.add_0_r.
Qed.

Lemma watches_construct h h' c s n this :
  watches h c s n → construct this h = Some h' → watches h' c s n.
Proof.
  intros (d & m & Hd & Hp & Hm & Hn) E. unfold construct in E.
  destruct (dicts h !! this) eqn:Ht; simplify_eq.
  exists d, m; simpl. by rewrite lookup_insert_ne by congruence.
Qed.

Lemma watches_copy_construct h h' c s n this other :
  watches h c s n → copy_construct this other h = Some h' → watches h' c s n.
Proof.
  intros (d & m & Hd & Hp & Hm & Hn) E. unfold copy_construct in E.
  inv_bind. destruct (dicts h !! this) eqn:Ht; simplify_eq.
  exists d, m; simpl. by rewrite lookup_insert_ne by congruence.
Qed.

Lemma watches_destroy h h' c s n this :
  wf h → watches h c s n → this ≠ c → destroy this h = Some h' →
  watches h' c s n.
Proof.
  intros W (d & m & Hd & Hp & Hm & Hn) Hne E. unfold destroy, dtor_body in E.
  destruct (dicts h !! this) as [d'|] eqn:Hd'; simplify_eq/=.
  destruct (_mutation_stamp d') as [s'|] eqn:Hs'; simplify_eq/=.
  - destruct (stamps h !! s') as [m'|] eqn:Hm'; simplify_eq/=.
    assert (s' ≠ s) by (intros ->; eauto using wf_one_dict).
    exists d, m; simpl. by rewrite lookup_delete_ne, lookup_insert_ne by done.
  - exists d, m; simpl. by rewrite lookup_delete_ne by done.
Qed.

Lemma watches_get_or_create_mutation_stamp h h' c s n this p s' :
  watches h c s n → get_or_create_mutation_stamp this p h = Some (s', h') →
  watches h' c s n.
Proof.
  intros (d & m & Hd & Hp & Hm & Hn) E.
  unfold get_or_create_mutation_stamp in E.
  destruct (dicts h !! this) as [d'|] eqn:Hd'; simplify_eq/=.
  destruct (_mutation_stamp d') as [s0|] eqn:Hs'; simplify_eq/=.
  { by exists d, m. }
  destruct (stamps h !! p) eqn:Hfresh; simplify_eq.
  exists d, m; simpl.
  rewrite !lookup_insert_ne by congruence. done.
Qed.

Lemma watches_new_owning_stamp h h' c s n p c' :
  watches h c s n → new_owning_stamp p c' h = Some h' → watches h' c s n.
Proof.
  intros (d & m & Hd & Hp & Hm & Hn) E. unfold new_owning_stamp in E.
  destruct (stamps h !! p) eqn:Hfp; simplify_eq.
  destruct (dicts h !! c') eqn:Hfc; simplify_eq.
  exists d, m; simpl. rewrite !lookup_insert_ne by congruence. done.
Qed.

Lemma watches_destroy_stamp h h' c s n s' :
  wf h → watches h c s n → s' ≠ s → destroy_stamp s' h = Some h' →
  watches h' c s n.
Proof.
  intros W (d & m & Hd & Hp & Hm & Hn) Hne E. unfold destroy_stamp in E.
  destruct (stamps h !! s') as [m'|] eqn:Hm'; simplify_eq/=.
  destruct (wf_dict _ W _ _ _ Hd Hp) as (m0 & Hm0 & Hback).
  rewrite Hm in Hm0; injection Hm0 as <-.
  destruct (any_dictionary m') as [c'|] eqn:Hback'; simplify_eq/=.
  - assert (c' ≠ c) by (intros ->; eauto using wf_one_stamp).
    destruct (dicts h !! c') as [d'|] eqn:Hd'; simplify_eq/=.
    destruct (owning m').
    + unfold destroy, dtor_body in E; simpl in E.
      rewrite lookup_insert_eq in E; simplify_eq/=.
      exists d, m; simpl.
      by rewrite lookup_delete_ne, lookup_insert_ne, lookup_delete_ne by done.
    + simplify_eq/=. exists d, m; simpl.
      by rewrite lookup_insert_ne, lookup_delete_ne by done.
  - exists d, m; simpl. by rewrite lookup_delete_ne by done.
Qed.

Lemma watches_eq h c s n n' : watches h c s n → n = n' → watches h c s n'.
Proof. by intros ? <-. Qed.

Ltac chain :=
  repeat match goal with
    | W : wf ?h, V : watches ?h _ _ _, E : mutate _ ?h = Some _ |- _ =>
        pose proof (watches_mutate _ _ _ _ _ _ W V E);
        pose proof (wf_mutate _ _ _ W E); clear E
    | W : wf ?h, V : watches ?h _ _ _, E : map_assign _ _ ?h = Some _ |- _ =>
        pose proof (watches_map_assign _ _ _ _ _ _ _ V E);
        pose proof (wf_map_assign _ _ _ _ W E); clear E
    end.

Lemma watches_step o h h' c s n :
  wf h → watches h c s n → keeps c s o = true →
  step hash_code o h = Some h' →
  watches h' c s (n + Z.of_nat (mutate_calls c o)).
Proof.
  intros W V K E.
  destruct o; simpl in E, K;
    unfold copy_assign, move_assign, ilist_assign, clear, insert,
      subscript_assign, erase_pos, erase_range, erase_key, swap,
      read_only in E;
    inv_bind; simplify_eq; chain;
    try (eapply watches_eq; [eassumption | simpl; repeat case_decide; lia]).
  - eapply watches_eq; [by eapply watches_construct | simpl; lia].
  - eapply watches_eq; [by eapply watches_copy_construct | simpl; lia].
  - apply negb_true_iff, bool_decide_eq_false in K.
    eapply watches_eq; [by eapply watches_destroy | simpl; lia].
  - destruct x.
    eapply watches_eq;
      [by eapply watches_get_or_create_mutation_stamp | simpl; lia].
  - eapply watches_eq; [by eapply watches_new_owning_stamp | simpl; lia].
  - apply negb_true_iff, bool_decide_eq_false in K.
    eapply watches_eq; [by eapply watches_destroy_stamp | simpl; lia].
Qed.

Lemma watches_run ops : ∀ h h' c s n,
  wf h → watches h c s n → forallb (keeps c s) ops = true →
  run hash_code ops h = Some h' →
  watches h' c s (n + Z.of_nat (total_mutate_calls c ops)).
Proof.
  induction ops as [|o ops IH]; simpl; intros h h' c s n W V K E.
  - simplify_eq. eapply watches_eq; [done | lia].
  - apply andb_true_iff in K as [K1 K2]. inv_bind.
    eapply watches_eq.
    + eapply IH; [by eapply wf_step | by eapply watches_step | done..].
    + lia.
Qed.

(** ** A tombstone stays a tombstone *)

Lemma stamps_map_assign h h' this m :
  map_assign this m h = Some h' → stamps h' = stamps h.
Proof. unfold map_assign. intros E. inv_bind. by simplify_eq. Qed.

Lemma tomb_mutate h h' s m this :
  wf h → stamps h !! s = Some m → any_dictionary m = None →
  mutate this h = Some h' → stamps h' !! s = Some m.
Proof.
  intros W Hm Hnull E. unfold mutate in E.
  destruct (dicts h !! this) as [d|] eqn:Hd; simplify_eq/=.
  destruct (_mutation_stamp d) as [s'|] eqn:Hs'; simplify_eq/=; [|done].
  destruct (wf_dict _ W _ _ _ Hd Hs') as (m' & Hm' & Hback).
  rewrite Hm' in E; simpl in E.
  destruct (int64_incr (stamp m')); simplify_eq/=.
  assert (s' ≠ s) by (intros ->; congruence).
  by rewrite lookup_insert_ne.
Qed.

Lemma tomb_destroy h h' s m this :
  wf h → stamps h !! s = Some m → any_dictionary m = None →
  destroy this h = Some h' → stamps h' !! s = Some m.
Proof.
  intros W Hm Hnull E. unfold destroy, dtor_body in E.
  destruct (dicts h !! this) as [d|] eqn:Hd; simplify_eq/=.
  destruct (_mutation_stamp d) as [s'|] eqn:Hs'; simplify_eq/=; [|done].
  destruct (wf_dict _ W _ _ _ Hd Hs') as (m' & Hm' & Hback).
  rewrite Hm' in E; simplify_eq/=.
  assert (s' ≠ s) by (intros ->; congruence).
  by rewrite lookup_insert_ne.
Qed.

Lemma tomb_get_or_create_mutation_stamp h h' s m this p s' :
  stamps h !! s = Some m →
  get_or_create_mutation_stamp this p h = Some (s', h') →
  stamps h' !! s = Some m.
Proof.
  intros Hm E. unfold get_or_create_mutation_stamp in E.
  destruct (dicts h !! this) as [d|]; simplify_eq/=.
  destruct (_mutation_stamp d); simplify_eq/=; [done|].
  destruct (stamps h !! p) eqn:Hp; simplify_eq/=.
  by rewrite lookup_insert_ne by congruence.
Qed.

Lemma tomb_new_owning_stamp h h' s m p c :
  stamps h !! s = Some m → new_owning_stamp p c h = Some h' →
  stamps h' !! s = Some m.
Proof.
  intros Hm E. unfold new_owning_stamp in E.
  destruct (stamps h !! p) eqn:Hp; simplify_eq/=.
  destruct (dicts h !! c); simplify_eq/=.
  by rewrite lookup_insert_ne by congruence.
Qed.

Lemma tomb_destroy_stamp h h' s m s' :
  stamps h !! s = Some m → s' ≠ s → destroy_stamp s' h = Some h' →
  stamps h' !! s = Some m.
Proof.
  intros Hm Hne E. unfold destroy_stamp in E.
  destruct (stamps h !! s') as [m'|]; simplify_eq/=.
  destruct (any_dictionary m') as [c|]; simplify_eq/=.
  - destruct (dicts h !! c) as [d|]; simplify_eq/=.
    destruct (owning m').
    + unfold destroy, dtor_body in E; simpl in E.
      rewrite lookup_insert_eq in E; simplify_eq/=.
      by rewrite lookup_delete_ne.
    + simplify_eq/=. by rewrite lookup_delete_ne.
  - by rewrite lookup_delete_ne.
Qed.

Ltac tomb_chain :=
  repeat match goal with
    | W : wf ?h, M : stamps ?h !! _ = Some ?m, N : any_dictionary ?m = None,
      E : mutate _ ?h = Some _ |- _ =>
        pose proof (tomb_mutate _ _ _ _ _ W M N E);
        pose proof (wf_mutate _ _ _ W E); clear E
    | W : wf ?h, M : stamps ?h !! ?s = Some ?m,
      E : map_assign _ _ ?h = Some ?h' |- _ =>
        assert (stamps h' !! s = Some m)
          by (rewrite (stamps_map_assign _ _ _ _ E); exact M);
        pose proof (wf_map_assign _ _ _ _ W E); clear E
    end.

Lemma tomb_step o h h' s m :
  wf h → stamps h !! s = Some m → any_dictionary m = None →
  keeps_stamp s o = true → step hash_code o h = Some h' →
  stamps h' !! s = Some m.
Proof.
  intros W Hm Hnull K E.
  destruct o; simpl in E, K;
    unfold copy_assign, move_assign, ilist_assign, clear, insert,
      subscript_assign, erase_pos, erase_range, erase_key, swap,
      read_only in E;
    inv_bind; simplify_eq; tomb_chain; try assumption.
  - unfold construct in E. by destruct (dicts h !! this); simplify_eq.
  - unfold copy_construct in E. inv_bind.
    by destruct (dicts h !! this); simplify_eq.
  - by eapply tomb_destroy.
  - destruct x. by eapply tomb_get_or_create_mutation_stamp.
  - by eapply tomb_new_owning_stamp.
  - apply negb_true_iff, bool_decide_eq_false in K.
    by eapply tomb_destroy_stamp.
Qed.

Lemma tomb_run ops : ∀ h h' s m,
  wf h → stamps h !! s = Some m → any_dictionary m = None →
  forallb (keeps_stamp s) ops = true → run hash_code ops h = Some h' →
  stamps h' !! s = Some m.
Proof.
  induction ops as [|o ops IH]; simpl; intros h h' s m W Hm Hnull K E.
  - by simplify_eq.
  - apply andb_true_iff in K as [K1 K2]. inv_bind.
    eapply IH; [by eapply wf_step | by eapply tomb_step | done..].
Qed.

(** * The claims *)

Lemma mutate_calls_no_alias c o :
  no_self_alias c o = true → mutate_calls c o = invalidating_calls c o.
Proof.
  destruct o; simpl; try done; intros K;
    apply negb_true_iff, bool_decide_eq_false in K;
    repeat case_decide; try done; tauto.
Qed.

Lemma total_mutate_calls_no_alias c ops :
  forallb (no_self_alias c) ops = true →
  total_mutate_calls c ops = total_invalidating_calls c ops.
Proof.
  induction ops as [|o ops IH]; simpl; [done|].
  intros [K1 K2]%andb_true_iff.
  by rewrite IH, mutate_calls_no_alias.
Qed.

(** C1, amended.  For a dictionary [c] whose stamp [s] reads 1, and calls
    that end neither of them, the counter of [s] after the calls is 1 plus
    the number of times [mutate] ran on [c]: once for each copy or
    initializer-list assignment, [clear] and [erase] called on [c], once
    for each [swap] or move assignment in which [c] is one operand, twice
    when [c] is both operands of it.  No other call (lookup, insertion,
    traversal, [get_if_set], [set_default], calls on other dictionaries)
    changes the counter, and without such a self-swap or self-move this
    number is the number of invalidating calls. *)
Theorem counter_counts_mutate_calls ops h h' c s :
  wf h → stamp_ptr h c = Some (Some s) → counter h s = Some 1 →
  forallb (keeps c s) ops = true →
  run hash_code ops h = Some h' →
  stamp_ptr h' c = Some (Some s) ∧
  counter h' s = Some (1 + Z.of_nat (total_mutate_calls c ops)) ∧
  (forallb (no_self_alias c) ops = true →
   total_mutate_calls c ops = total_invalidating_calls c ops).
Proof.
  intros W Hp Hc K E.
  assert (V : watches h c s 1) by by apply watches_read.
  pose proof (watches_run _ _ _ _ _ _ W V K E) as [? ?]%watches_read.
  auto using total_mutate_calls_no_alias.
Qed.

(** C2.  Destroying a dictionary [c] that has the stamp [s] always
    succeeds; the destructor's body leaves [s] with counter -1 and a null
    back-reference while [c] still holds its elements, and only then is
    [c] released; afterwards no dictionary points at [s], so no other
    destructor writes to it again, and whatever calls follow, as long as
    the stamp itself lives, it stays at -1 with a null back-reference. *)
Theorem destroy_tombstones_stamp h c s :
  wf h → stamp_ptr h c = Some (Some s) →
  ∃ h1, dtor_body c h = Some h1 ∧
        contents h1 c = contents h c ∧ tombstoned h1 s ∧
        destroy c h = Some (release c h1) ∧
        dicts (release c h1) !! c = None ∧
        (∀ c', stamp_ptr (release c h1) c' ≠ Some (Some s)) ∧
        ∀ ops h', forallb (keeps_stamp s) ops = true →
                  run hash_code ops (release c h1) = Some h' →
                  tombstoned h' s.
Proof.
  intros W (d & Hd & Hp)%fmap_Some.
  destruct (wf_dict _ W _ _ _ Hd (eq_sym Hp)) as (m & Hm & Hback).
  assert (E1 : dtor_body c h = Some (put_stamp s (mk_stamp (-1) None (owning m)) h)).
  { unfold dtor_body. rewrite Hd; simpl. rewrite <- Hp, Hm. done. }
  assert (E : destroy c h
              = Some (release c (put_stamp s (mk_stamp (-1) None (owning m)) h))).
  { unfold destroy. by rewrite E1. }
  pose proof (wf_destroy _ _ _ W E) as W'.
  assert (Hs : stamps (release c (put_stamp s (mk_stamp (-1) None (owning m)) h))
               !! s = Some (mk_stamp (-1) None (owning m))).
  { simpl. by rewrite lookup_insert_eq. }
  assert (T : tombstoned (put_stamp s (mk_stamp (-1) None (owning m)) h) s).
  { unfold tombstoned, counter, back_ref; simpl.
    by rewrite lookup_insert_eq. }
  eexists. split; [exact E1|]. split; [done|]. split; [exact T|].
  split; [exact E|]. split; [simpl; by rewrite lookup_delete_eq|]. split.
  - intros c' (d' & Hd' & Hp')%fmap_Some.
    destruct (wf_dict _ W' _ _ _ Hd' (eq_sym Hp')) as (m' & Hm' & Hb').
    rewrite Hs in Hm'. by simplify_eq.
  - intros ops h' K R. unfold tombstoned, counter, back_ref.
    by rewrite (tomb_run _ _ _ _ _ W' Hs eq_refl K R).
Qed.

Lemma mutate_attached h c d s m :
  dicts h !! c = Some d → _mutation_stamp d = Some s →
  stamps h !! s = Some m → stamp m < INT64_MAX →
  mutate c h
  = Some (put_stamp s (mk_stamp (stamp m + 1) (any_dictionary m) (owning m)) h).
Proof.
  intros Hd Hp Hm Hlt. unfold mutate. rewrite Hd; simpl. rewrite Hp, Hm; simpl.
  unfold int64_incr. by rewrite decide_True.
Qed.

Lemma dicts_mutate h h' this : mutate this h = Some h' → dicts h' = dicts h.
Proof.
  unfold mutate. intros E. inv_bind.
  destruct (_mutation_stamp _); inv_bind; by simplify_eq.
Qed.

Ltac observe :=
  unfold contents, stamp_ptr, counter, back_ref, is_owning; simpl;
  repeat first [ rewrite lookup_insert_eq
               | rewrite lookup_insert_ne by done
               | rewrite lookup_delete_eq
               | rewrite lookup_delete_ne by done ]; simpl.

(** C3, amended.  For two distinct dictionaries [a] and [b] with stamps
    [sa] and [sb] whose counters can still grow, [swap] succeeds; it first
    adds 1 to both counters, the elements being still in place, and then
    exchanges the elements only: [a] keeps the stamp pointer [sa] and [b]
    keeps [sb], and each back-reference still points at the dictionary it
    pointed at, which now holds the other one's former elements. *)
Theorem swap_bumps_both_keeps_stamp_pointers h a b sa sb na nb :
  wf h → a ≠ b →
  stamp_ptr h a = Some (Some sa) → stamp_ptr h b = Some (Some sb) →
  counter h sa = Some na → counter h sb = Some nb →
  na < INT64_MAX → nb < INT64_MAX →
  ∃ h2 h',
    mutate a h ≫= mutate b = Some h2 ∧
    contents h2 a = contents h a ∧ contents h2 b = contents h b ∧
    counter h2 sa = Some (na + 1) ∧ counter h2 sb = Some (nb + 1) ∧
    swap a b h = Some h' ∧
    counter h' sa = Some (na + 1) ∧ counter h' sb = Some (nb + 1) ∧
    contents h' a = contents h b ∧ contents h' b = contents h a ∧
    stamp_ptr h' a = Some (Some sa) ∧ stamp_ptr h' b = Some (Some sb) ∧
    back_ref h' sa = Some (Some a) ∧ back_ref h' sb = Some (Some b).
Proof.
  intros W Hab (da & Hda & Hpa)%fmap_Some (db & Hdb & Hpb)%fmap_Some
    (ma & Hma & Hna)%fmap_Some (mb & Hmb & Hnb)%fmap_Some La Lb.
  symmetry in Hpa, Hpb. subst na nb.
  destruct (wf_dict _ W _ _ _ Hda Hpa) as (ma' & Hma' & Hba).
  destruct (wf_dict _ W _ _ _ Hdb Hpb) as (mb' & Hmb' & Hbb).
  simplify_eq.
  assert (sa ≠ sb) by (intros ->; simplify_eq).
  set (h1 := put_stamp sa (mk_stamp (stamp ma + 1) (Some a) (owning ma)) h).
  set (h2 := put_stamp sb (mk_stamp (stamp mb + 1) (Some b) (owning mb)) h1).
  assert (E1 : mutate a h = Some h1).
  { unfold h1. rewrite <- Hba. by eapply mutate_attached. }
  assert (E2 : mutate b h1 = Some h2).
  { unfold h2. rewrite <- Hbb.
    apply (mutate_attached h1 b db sb mb); try done.
    unfold h1; simpl. by rewrite lookup_insert_ne. }
  assert (E : swap a b h
    = Some (put_dict b (mk_dict (map da) (Some sb))
              (put_dict a (mk_dict (map db) (Some sa)) h2))).
  { unfold swap. rewrite E1; simpl. rewrite E2; simpl.
    unfold h2, h1, map_assign; simpl. rewrite Hda, Hdb; simpl.
    rewrite lookup_insert_ne by done. rewrite Hdb; simpl.
    by rewrite Hpa, Hpb. }
  exists h2, (put_dict b (mk_dict (map da) (Some sb))
               (put_dict a (mk_dict (map db) (Some sa)) h2)).
  split; [by rewrite E1|]. unfold h2, h1.
  repeat split; try exact E; observe;
    rewrite ?Hda, ?Hdb, ?Hma, ?Hmb; done.
Qed.

(** C4, amended.  The move assignment [a = std::move(b)], for [b] with
    the stamp [sb] and [a] another dictionary, adds 1 to the counter of
    [sb] and leaves [sb] attached to [b] (it is not made a tombstone); [a]
    keeps the stamp pointer it had, so it takes no stamp from [b]; [a]
    receives the elements of [b]. *)
Theorem move_assign_bumps_source h h' a b sb nb :
  wf h → a ≠ b →
  stamp_ptr h b = Some (Some sb) → counter h sb = Some nb →
  move_assign a b h = Some h' →
  counter h' sb = Some (nb + 1) ∧ back_ref h' sb = Some (Some b) ∧
  stamp_ptr h' b = Some (Some sb) ∧ stamp_ptr h' a = stamp_ptr h a ∧
  contents h' a = contents h b.
Proof.
  intros W Hab Hp Hc E.
  assert (V : watches h b sb nb) by by apply watches_read.
  assert (W' : wf h').
  { apply (wf_step (MoveAssign a b) h h' W E). }
  pose proof (watches_step (MoveAssign a b) _ _ _ _ _ W V eq_refl E) as V'.
  simpl in V'. rewrite decide_False, decide_True in V' by done.
  destruct V' as (d & m & Hd & Hpd & Hm & Hn).
  destruct (wf_dict _ W' _ _ _ Hd Hpd) as (m' & Hm' & Hback). simplify_eq.
  unfold move_assign, map_assign in E. inv_bind. simplify_eq.
  rename select (mutate a h = _) into E1.
  rename select (mutate b _ = _) into E2.
  apply dicts_mutate in E1, E2.
  repeat split.
  - unfold counter. rewrite Hm; simpl. f_equal. lia.
  - unfold back_ref. rewrite Hm; simpl. by rewrite Hback.
  - unfold stamp_ptr. rewrite Hd; simpl. by rewrite Hpd.
  - observe. rewrite <- E1, <- E2.
    match goal with
    | Ha : dicts _ !! a = Some ?y |- context [_mutation_stamp ?y] =>
        by rewrite Ha
    end.
  - observe. rewrite <- E1, <- E2.
    match goal with
    | Hb : dicts _ !! b = Some ?y |- context [map ?y] => by rewrite Hb
    end.
Qed.

(** C7.  Destroying a stamp [s] that is attached to the live dictionary
    [c] succeeds and leaves no dictionary pointing at [s]; in owning mode
    [c] is destroyed with it, in attached mode [c] survives with its
    elements and a null stamp pointer. *)
Theorem destroy_stamp_clears_pointer h s c ow :
  wf h → back_ref h s = Some (Some c) → is_owning h s = Some ow →
  ∃ h', destroy_stamp s h = Some h' ∧ stamps h' !! s = None ∧
        (∀ c', stamp_ptr h' c' ≠ Some (Some s)) ∧
        if ow then dicts h' !! c = None
        else stamp_ptr h' c = Some None ∧ contents h' c = contents h c.
Proof.
  intros W (m & Hm & Hback)%fmap_Some (m' & Hm' & How)%fmap_Some.
  simplify_eq. symmetry in Hback.
  destruct (wf_stamp _ W _ _ _ Hm Hback) as (d & Hd & Hp).
  assert (∃ h', destroy_stamp s h = Some h' ∧ stamps h' !! s = None ∧
            if owning m then dicts h' !! c = None
            else stamp_ptr h' c = Some None ∧ contents h' c = contents h c)
    as (h' & E & Hgone & Hc).
  { unfold destroy_stamp. rewrite Hm; simpl. rewrite Hback, Hd; simpl.
    destruct (owning m); simpl.
    - unfold destroy, dtor_body; simpl. rewrite lookup_insert_eq; simpl.
      eexists; split; [done|]. simpl.
      by rewrite !lookup_delete_eq.
    - eexists; split; [done|]. observe. by rewrite Hd. }
  exists h'. split; [done|]. split; [done|]. split; [|done].
  intros c' (d' & Hd' & Hp')%fmap_Some.
  pose proof (wf_destroy_stamp _ _ _ W E) as W'.
  destruct (wf_dict _ W' _ _ _ Hd' (eq_sym Hp')) as (m1 & Hm1 & _).
  congruence.
Qed.

(** C8.  [get_or_create_mutation_stamp] called again on the same
    dictionary, whatever calls came in between as long as they ended
    neither the dictionary nor its stamp, returns the same stamp and
    changes nothing; the first call on a dictionary without a stamp makes
    one at the address given by [new], in attached mode: counter 1,
    back-reference to the dictionary, not owning, and stores it. *)
Theorem get_or_create_mutation_stamp_idempotent h h1 h2 c p p' s ops :
  wf h → get_or_create_mutation_stamp c p h = Some (s, h1) →
  forallb (keeps c s) ops = true → run hash_code ops h1 = Some h2 →
  get_or_create_mutation_stamp c p' h2 = Some (s, h2) ∧
  (stamp_ptr h c = Some None →
   s = p ∧ stamps h1 !! s = Some (mk_stamp 1 (Some c) false) ∧
   stamp_ptr h1 c = Some (Some s) ∧ contents h1 c = contents h c).
Proof.
  intros W E K R.
  pose proof (wf_get_or_create_mutation_stamp _ _ _ _ _ W E) as W1.
  unfold get_or_create_mutation_stamp in E.
  destruct (dicts h !! c) as [d|] eqn:Hd; simplify_eq/=.
  assert (∃ n, watches h1 c s n) as [n V].
  { destruct (_mutation_stamp d) as [s0|] eqn:Hp; simplify_eq/=.
    - destruct (wf_dict _ W _ _ _ Hd Hp) as (m & Hm & _).
      exists (stamp m), d, m. done.
    - destruct (stamps h !! p) eqn:Hfresh; simplify_eq/=.
      eexists 1, _, _. simpl. rewrite !lookup_insert_eq. done. }
  pose proof (watches_run _ _ _ _ _ _ W1 V K R) as (d2 & m2 & Hd2 & Hp2 & _).
  split.
  - unfold get_or_create_mutation_stamp. rewrite Hd2; simpl. by rewrite Hp2.
  - unfold stamp_ptr at 1. rewrite Hd; simpl. intros [= Hnone].
    rewrite Hnone in E.
    destruct (stamps h !! p) eqn:Hfresh; simplify_eq/=.
    repeat split; observe; by rewrite ?Hd.
Qed.

(** C9.  Copy construction from a dictionary that has a stamp gives, at
    any unused address, a dictionary with the same elements and no stamp;
    the source keeps its stamp pointer and its elements, and no stamp
    changes. *)
Theorem copy_construct_drops_stamp h this other s :
  stamp_ptr h other = Some (Some s) → dicts h !! this = None →
  ∃ h', copy_construct this other h = Some h' ∧
        stamp_ptr h' this = Some None ∧
        contents h' this = contents h other ∧
        stamp_ptr h' other = Some (Some s) ∧
        contents h' other = contents h other ∧
        stamps h' = stamps h.
Proof.
  intros (o & Ho & Hp)%fmap_Some Hfresh.
  assert (this ≠ other) by congruence.
  unfold copy_construct. rewrite Ho, Hfresh; simpl.
  eexists; split; [done|].
  repeat split; observe; rewrite ?Ho; simpl; by rewrite ?Hp.
Qed.

(** ** [get_if_set] and [set_default] *)

Lemma hash_code_eqb T1 T2 :
  Inj (=) (=) hash_code →
  (hash_code T1 =? hash_code T2) = bool_decide (T1 = T2).
Proof.
  intros Hinj. case_bool_decide as HT.
  - subst. apply Z.eqb_refl.
  - apply Z.eqb_neq. intros ?%Hinj. done.
Qed.

Lemma any_cast_same (a : any) : any_cast (any_type a) a = Some (any_value a).
Proof. unfold any_cast. by rewrite decide_True. Qed.

Lemma map_insert_present key v (m : gmap string any) a :
  m !! key = Some a → map_insert key v m = m.
Proof. unfold map_insert. by intros ->. Qed.

Lemma map_insert_absent key v (m : gmap string any) :
  m !! key = None → map_insert key v m = <[key := v]> m.
Proof. unfold map_insert. by intros ->. Qed.

Lemma set_default_match T key r (this : gmap string any) a :
  this !! key = Some a → any_type a = T →
  set_default hash_code T key (Some r) this
  = Some (true, Some (any_value a), this).
Proof.
  intros Ha <-. unfold set_default. rewrite Ha, Z.eqb_refl, any_cast_same.
  done.
Qed.

Lemma set_default_absent T key r (this : gmap string any) :
  this !! key = None →
  set_default hash_code T key (Some r) this
  = Some (false, Some r, <[key := mk_any T r]> this).
Proof.
  intros Ha. unfold set_default. by rewrite Ha, map_insert_absent.
Qed.

Lemma set_default_mismatch T key r (this : gmap string any) a :
  Inj (=) (=) hash_code → this !! key = Some a → any_type a ≠ T →
  set_default hash_code T key (Some r) this = Some (false, Some r, this).
Proof.
  intros Hinj Ha HT. unfold set_default.
  rewrite Ha, hash_code_eqb, bool_decide_eq_false_2 by done.
  by erewrite map_insert_present.
Qed.

(** C6.  With distinct types having distinct hash codes, [get_if_set]
    returns, and returns true exactly when the slot is not null, the key
    is present and the stored value has the type of the slot; then the
    slot holds the stored value; when it returns false the slot is as it
    was; the call never changes the store. *)
Theorem get_if_set_decodes_matching_type T key result
    (this : gmap string any) :
  Inj (=) (=) hash_code →
  ∃ b out,
    get_if_set hash_code T key result this = Some (b, out) ∧
    (b = true ↔ is_Some result ∧ key_matches T key this) ∧
    (b = true → ∃ a, this !! key = Some a ∧ out = Some (any_value a)) ∧
    (b = false → out = result) ∧
    ∀ h h' c, step hash_code (GetIfSet c T key result) h = Some h' → h' = h.
Proof.
  intros Hinj.
  assert (Hstep : ∀ h h' c,
    step hash_code (GetIfSet c T key result) h = Some h' → h' = h).
  { simpl. intros h h' c E. inv_bind. by simplify_eq. }
  unfold get_if_set, key_matches.
  destruct result as [r0|].
  2: { exists false, None. split_and!; try done.
       split; [done|]. by intros [[? ?] _]. }
  destruct (this !! key) as [a|] eqn:Ha.
  2: { exists false, (Some r0). split_and!; try done.
       split; [done|]. by intros [_ (? & ? & _)]. }
  rewrite hash_code_eqb by done. case_bool_decide as HT.
  - subst T. rewrite any_cast_same; simpl.
    exists true, (Some (any_value a)). split_and!; try done.
    + split; [|done]. intros _. split; [done|]. by exists a.
    + intros _. by exists a.
  - exists false, (Some r0). split_and!; try done.
    split; [done|]. intros [_ (a' & ? & ?)]. by simplify_eq.
Qed.

(** C10.  With distinct types having distinct hash codes: when the key is
    present with a value of another type than the slot's, [set_default]
    returns false, the slot keeps its value and the map is the same map,
    so the stored value stays. *)
Theorem set_default_type_mismatch_changes_nothing T key r
    (this : gmap string any) a :
  Inj (=) (=) hash_code → this !! key = Some a → any_type a ≠ T →
  set_default hash_code T key (Some r) this = Some (false, Some r, this) ∧
  ∀ this', set_default hash_code T key (Some r) this
           = Some (false, Some r, this') → this' !! key = Some a.
Proof.
  intros Hinj Ha HT. rewrite (set_default_mismatch T key r this a) by done.
  split; [done|]. intros this' [= <-]. done.
Qed.

End Invariant.

(** * The claims on concrete stores *)

Lemma cpp_hash_inj : Inj (=) (=) cpp_hash.
Proof. intros [] [] E; (reflexivity || discriminate E). Qed.

Lemma counter_counts_mutate_calls_witness :
  stamp_ptr demo_after 1 = Some (Some 10%positive) ∧
  counter demo_after 10 = Some 6.
Proof.
  destruct (counter_counts_mutate_calls cpp_hash demo_calls demo_heap
              demo_after 1 10) as (Hp & Hc & _).
  - apply wf_build.
  - vm_compute; reflexivity.
  - vm_compute; reflexivity.
  - vm_compute; reflexivity.
  - vm_compute; reflexivity.
  - split; [exact Hp | exact Hc].
Defined.

(** C1, as stated, fails: [a.swap(a)] is one invalidating call on the
    dictionary at 1, and it raises the counter of its stamp from 1 to 3. *)
Lemma self_swap_bumps_twice_counterexample :
  stamp_ptr demo_heap 1 = Some (Some 10%positive) ∧ counter demo_heap 10 = Some 1 ∧
  run cpp_hash self_swap_calls demo_heap = Some demo_self_swap ∧
  total_invalidating_calls 1 self_swap_calls = 1%nat ∧
  counter demo_self_swap 10 = Some 3 ∧
  counter demo_self_swap 10
  ≠ Some (1 + Z.of_nat (total_invalidating_calls 1 self_swap_calls)).
Proof.
  split_and!; try (vm_compute; reflexivity).
  vm_compute. discriminate.
Qed.

Lemma destroy_tombstones_stamp_witness :
  ∃ h1, dtor_body 1 demo_heap = Some h1 ∧ tombstoned h1 10 ∧
        destroy 1 demo_heap = Some (release 1 h1).
Proof.
  destruct (destroy_tombstones_stamp cpp_hash demo_heap 1 10)
    as (h1 & E1 & _ & T & E & _).
  - apply wf_build.
  - vm_compute; reflexivity.
  - exists h1. split; [exact E1|]. split; [exact T | exact E].
Defined.

Lemma swap_bumps_both_keeps_stamp_pointers_witness :
  ∃ h', swap 1 2 demo_heap = Some h' ∧
        counter h' 10 = Some 2 ∧ counter h' 20 = Some 2 ∧
        stamp_ptr h' 1 = Some (Some 10%positive) ∧ back_ref h' 10 = Some (Some 1%positive) ∧
        contents h' 1 = contents demo_heap 2.
Proof.
  destruct (swap_bumps_both_keeps_stamp_pointers demo_heap 1 2 10 20 1 1)
    as (h2 & h' & _ & _ & _ & _ & _ & E & Ca & Cb & Ma & _ & Pa & _ & Ba & _).
  - apply wf_build.
  - discriminate.
  - vm_compute; reflexivity.
  - vm_compute; reflexivity.
  - vm_compute; reflexivity.
  - vm_compute; reflexivity.
  - vm_compute; reflexivity.
  - vm_compute; reflexivity.
  - exists h'. split_and!; assumption.
Defined.

(** C3, as stated, fails: after [swap] of the dictionaries at 1 and 2 the
    stamp pointers are where they were, and the stamp at 10 points at the
    dictionary at 1, which no longer holds what it held. *)
Lemma swap_keeps_stamp_pointers_counterexample :
  swap 1 2 demo_heap = Some demo_swapped ∧
  stamp_ptr demo_swapped 1 = Some (Some 10%positive) ∧
  back_ref demo_swapped 10 = Some (Some 1%positive) ∧
  ¬ stamp_pointers_exchanged demo_heap 1 2 demo_swapped ∧
  ¬ back_ref_follows_data demo_heap 1 10 demo_swapped.
Proof.
  split_and!; try (vm_compute; reflexivity).
  - intros [E _]. vm_compute in E. discriminate E.
  - intros (c' & Hb & Hc). vm_compute in Hb. injection Hb as <-.
    assert (E : (contents demo_swapped 1 ≫= (.!! "z"))
                = (contents demo_heap 1 ≫= (.!! "z"))) by by rewrite Hc.
    vm_compute in E. discriminate E.
Qed.

Lemma move_assign_bumps_source_witness :
  counter demo_moved 20 = Some 2 ∧ back_ref demo_moved 20 = Some (Some 2%positive) ∧
  stamp_ptr demo_moved 1 = Some (Some 10%positive).
Proof.
  destruct (move_assign_bumps_source cpp_hash demo_heap demo_moved 1 2 20 1)
    as (C & B & _ & P & _).
  - apply wf_build.
  - discriminate.
  - vm_compute; reflexivity.
  - vm_compute; reflexivity.
  - vm_compute; reflexivity.
  - split; [exact C|]. split; [exact B|]. rewrite P. vm_compute; reflexivity.
Defined.

(** C4, as stated, fails: after [a = std::move(b)] with [a] at 1 and [b]
    at 2, the stamp of [b] reads 2 and still points at [b]. *)
Lemma move_assign_no_tombstone_counterexample :
  stamp_ptr demo_heap 2 = Some (Some 20%positive) ∧
  move_assign 1 2 demo_heap = Some demo_moved ∧
  counter demo_moved 20 = Some 2 ∧
  back_ref demo_moved 20 = Some (Some 2%positive) ∧
  ¬ tombstoned demo_moved 20.
Proof.
  split_and!; try (vm_compute; reflexivity).
  intros [E _]. vm_compute in E. discriminate E.
Qed.

(** C5 on the failing input: the key "a" holds an [int64_t] and the slot
    is a [std::string].  [set_default] returns false and the map is the
    one it was, so the key does not hold the given value. *)
Theorem set_default_wrong_type_does_not_store :
  set_default cpp_hash t_string "a" (Some (v_string "x")) demo_map
  = Some (false, Some (v_string "x"), demo_map) ∧
  demo_map !! "a" = Some (any_int64 1) ∧
  ¬ set_default_otherwise_stores cpp_hash t_string "a" (v_string "x")
      demo_map.
Proof.
  assert (E : set_default cpp_hash t_string "a" (Some (v_string "x")) demo_map
              = Some (false, Some (v_string "x"), demo_map))
    by (vm_compute; reflexivity).
  split_and!; [exact E | vm_compute; reflexivity |].
  intros H. destruct H as (this' & E' & Hl).
  - intros (a & Ha & HT). vm_compute in Ha. injection Ha as <-.
    discriminate HT.
  - rewrite E in E'. injection E' as <-. vm_compute in Hl. discriminate Hl.
Qed.

Lemma get_if_set_decodes_matching_type_witness :
  ∃ out, get_if_set cpp_hash t_int64 "a" (Some (v_int64 0)) demo_map
         = Some (true, out) ∧ out = Some (v_int64 1).
Proof.
  destruct (get_if_set_decodes_matching_type cpp_hash t_int64 "a"
              (Some (v_int64 0)) demo_map cpp_hash_inj)
    as (b & out & E & [_ Hb] & Hout & _).
  assert (b = true) as ->.
  { apply Hb. split; [by eexists|].
    exists (any_int64 1). split; vm_compute; reflexivity. }
  exists out. split; [exact E|].
  destruct (Hout eq_refl) as (a & Ha & ->).
  vm_compute in Ha. by injection Ha as <-.
Defined.

Lemma destroy_stamp_clears_pointer_witness :
  (∃ h', destroy_stamp 10 demo_heap = Some h' ∧ stamp_ptr h' 1 = Some None) ∧
  (∃ h', destroy_stamp 30 demo_owning_heap = Some h' ∧ dicts h' !! 3%positive = None).
Proof.
  split.
  - destruct (destroy_stamp_clears_pointer demo_heap 10 1 false)
      as (h' & E & _ & _ & P & _).
    + apply wf_build.
    + vm_compute; reflexivity.
    + vm_compute; reflexivity.
    + exists h'. split; [exact E | exact P].
  - destruct (destroy_stamp_clears_pointer demo_owning_heap 30 3 true)
      as (h' & E & _ & _ & P).
    + apply wf_build.
    + vm_compute; reflexivity.
    + vm_compute; reflexivity.
    + exists h'. split; [exact E | exact P].
Defined.

Lemma get_or_create_mutation_stamp_idempotent_witness :
  get_or_create_mutation_stamp 1 11 demo_after = Some (10%positive, demo_after).
Proof.
  destruct (get_or_create_mutation_stamp_idempotent cpp_hash
              (build cpp_hash (take 3 demo_setup))
              (build cpp_hash (take 4 demo_setup)) demo_after
              1 10 11 10 (drop 4 demo_setup ++ demo_calls)) as [E _].
  - apply wf_build.
  - vm_compute; reflexivity.
  - vm_compute; reflexivity.
  - vm_compute; reflexivity.
  - exact E.
Defined.

Lemma copy_construct_drops_stamp_witness :
  ∃ h', copy_construct 5 1 demo_heap = Some h' ∧
        stamp_ptr h' 5 = Some None ∧ stamp_ptr h' 1 = Some (Some 10%positive) ∧
        stamps h' = stamps demo_heap.
Proof.
  destruct (copy_construct_drops_stamp demo_heap 5 1 10)
    as (h' & E & P5 & _ & P1 & _ & S).
  - vm_compute; reflexivity.
  - vm_compute; reflexivity.
  - exists h'. split_and!; assumption.
Defined.

Lemma set_default_type_mismatch_changes_nothing_witness :
  set_default cpp_hash t_bool "b" (Some (v_bool true)) demo_map
  = Some (false, Some (v_bool true), demo_map).
Proof.
  destruct (set_default_type_mismatch_changes_nothing cpp_hash t_bool "b"
              (v_bool true) demo_map (any_int64 2) cpp_hash_inj) as [E _].
  - vm_compute; reflexivity.
  - discriminate.
  - exact E.
Defined.

(** * Further properties of the class *)

Section MoreProperties.
Context {type_info payload : Type} `{!EqDecision type_info}.
Variable hash_code : type_info → Z.

Abbreviation heap := (@heap type_info payload).
Abbreviation op := (@op type_info payload).
Abbreviation any := (@any type_info payload).
Implicit Types (h : heap) (o : op) (ops : list op).
Implicit Types (T : type_info) (r : payload) (result : option payload).

Lemma heap_eta h : mk_heap (dicts h) (stamps h) = h.
Proof. by destruct h. Qed.

Lemma dict_eta (d : @AnyDictionary type_info payload) :
  mk_dict (map d) (_mutation_stamp d) = d.
Proof. by destruct d. Qed.

(** X1.  In every store that calls of the class build from nothing, a
    dictionary and its stamp point at each other, and no stamp is shared
    by two dictionaries. *)
Theorem reachable_store_is_linked ops h :
  run hash_code ops empty_heap = Some h →
  (∀ c s, stamp_ptr h c = Some (Some s) → back_ref h s = Some (Some c)) ∧
  (∀ s c, back_ref h s = Some (Some c) → stamp_ptr h c = Some (Some s)) ∧
  (∀ c1 c2 s, stamp_ptr h c1 = Some (Some s) →
              stamp_ptr h c2 = Some (Some s) → c1 = c2).
Proof.
  intros R. pose proof (wf_reachable hash_code ops h R) as W.
  assert (L : ∀ c s, stamp_ptr h c = Some (Some s) →
                      back_ref h s = Some (Some c)).
  { intros c s (d & Hd & Hp)%fmap_Some.
    destruct (wf_dict _ W _ _ _ Hd (eq_sym Hp)) as (m & Hm & Hb).
    unfold back_ref. rewrite Hm; simpl. by rewrite Hb. }
  split; [exact L|]. split.
  - intros s c (m & Hm & Hb)%fmap_Some.
    destruct (wf_stamp _ W _ _ _ Hm (eq_sym Hb)) as (d & Hd & Hp).
    unfold stamp_ptr. rewrite Hd; simpl. by rewrite Hp.
  - intros c1 c2 s H1%L H2%L. congruence.
Qed.

(** X2.  In every such store a stamp reads -1 exactly when its
    back-reference is null; an attached stamp reads at least 1. *)
Theorem reachable_counter_is_valid ops h s n :
  run hash_code ops empty_heap = Some h → counter h s = Some n →
  (n = -1 ∧ back_ref h s = Some None) ∨
  (1 ≤ n ≤ INT64_MAX ∧ ∃ c, back_ref h s = Some (Some c)).
Proof.
  intros R (m & Hm & ->)%fmap_Some.
  pose proof (wf_reachable hash_code ops h R) as W.
  pose proof (wf_counter _ W _ _ Hm) as C. unfold counter_ok in C.
  unfold back_ref. rewrite Hm; simpl.
  destruct (any_dictionary m) as [c|]; [right | left]; eauto.
Qed.

Lemma mutate_calls_le_2 c o : (mutate_calls c o ≤ 2)%nat.
Proof. destruct o; simpl; repeat case_decide; lia. Qed.

(** X3.  One call changes the counter of a stamp that it does not end in
    one of four ways: not at all, by 1, by 2, or to -1; the counter of a
    live stamp therefore only grows until its dictionary is destroyed. *)
Theorem counter_only_grows o h h' s n :
  wf h → counter h s = Some n → keeps_stamp s o = true →
  step hash_code o h = Some h' →
  ∃ n', counter h' s = Some n' ∧
        (n' = n ∨ n' = n + 1 ∨ n' = n + 2 ∨ n' = -1).
Proof.
  intros W (m & Hm & ->)%fmap_Some K E.
  destruct (any_dictionary m) as [c|] eqn:Hb.
  - destruct (wf_stamp _ W _ _ _ Hm Hb) as (d & Hd & Hp).
    destruct (keeps c s o) eqn:K'.
    + assert (V : watches h c s (stamp m)) by (by exists d, m).
      pose proof (watches_step hash_code o _ _ _ _ _ W V K' E)
        as [_ Hc]%watches_read.
      eexists; split; [exact Hc|].
      pose proof (mutate_calls_le_2 c o). lia.
    + destruct o; simpl in K', K; try congruence.
      apply negb_false_iff, bool_decide_eq_true in K'. subst this.
      exists (-1). split; [|auto]. simpl in E.
      unfold destroy, dtor_body in E. rewrite Hd in E; simpl in E.
      rewrite Hp, Hm in E; simplify_eq/=.
      unfold counter; simpl. by rewrite lookup_insert_eq.
  - exists (stamp m). split; [|auto].
    unfold counter. by rewrite (tomb_step hash_code o h h' s m).
Qed.



(** ** What one call does to the elements and to the stamps *)

Lemma mutate_bumps h h' c s n :
  stamp_ptr h c = Some (Some s) → counter h s = Some n →
  mutate c h = Some h' → counter h' s = Some (n + 1).
Proof.
  intros (d & Hd & Hp)%fmap_Some (m & Hm & ->)%fmap_Some E.
  unfold mutate in E. rewrite Hd in E; simpl in E.
  rewrite <- Hp, Hm in E; simpl in E. inv_bind.
  rename select (int64_incr _ = _) into Hi.
  apply int64_incr_Some in Hi as [-> _]. simplify_eq.
  unfold counter; simpl. by rewrite lookup_insert_eq.
Qed.


Lemma counter_map_assign h h' this (m : gmap string any) s :
  map_assign this m h = Some h' → counter h' s = counter h s.
Proof. intros E. unfold counter. by rewrite (stamps_map_assign _ _ _ _ E). Qed.

Lemma contents_map_assign h h' this (m : gmap string any) :
  map_assign this m h = Some h' →
  contents h' this = Some m ∧
  ∀ c, c ≠ this → dicts h' !! c = dicts h !! c.
Proof.
  unfold map_assign. intros E. inv_bind. simplify_eq.
  unfold contents; simpl. rewrite lookup_insert_eq. split; [done|].
  intros c Hc. by rewrite lookup_insert_ne.
Qed.

Lemma contents_mutate h h' this c :
  mutate this h = Some h' → contents h' c = contents h c.
Proof. intros E. unfold contents. by rewrite (dicts_mutate _ _ _ E). Qed.


(** X5.  [erase(key)] returns 1 when the key was there and 0 when it was
    not, removes that key and no other, and adds 1 to the counter in both
    cases: also an [erase] that removes nothing invalidates. *)
Theorem erase_key_counts_and_bumps h h' c s n (m : gmap string any) key k :
  stamp_ptr h c = Some (Some s) → counter h s = Some n →
  contents h c = Some m →
  erase_key c key h = Some (k, h') →
  k = (if m !! key is Some _ then 1 else 0)%nat ∧
  contents h' c = Some (delete key m) ∧
  (m !! key = None → contents h' c = Some m) ∧
  counter h' s = Some (n + 1).
Proof.
  intros Hp Hc Hm E. unfold erase_key in E. inv_bind.
  rename select (mutate c h = _) into E1.
  rename select (map_assign _ _ _ = _) into E2.
  rename select (dicts _ !! c = _) into Hd.
  assert (Hx : map x0 = m).
  { rewrite <- (contents_mutate _ _ _ c E1) in Hm. unfold contents in Hm.
    rewrite Hd in Hm. by simplify_eq/=. }
  simplify_eq. split; [done|].
  destruct (contents_map_assign _ _ _ _ E2) as [Hc' _].
  split; [done|]. split.
  - intros Hk. by rewrite Hc', delete_id.
  - rewrite (counter_map_assign _ _ _ _ s E2). by eapply mutate_bumps.
Qed.

Lemma key_le_lt_false f k : key_le f k && key_lt k f = false.
Proof.
  unfold key_le, key_lt, Stdlib.Strings.String.leb, Stdlib.Strings.String.ltb.
  rewrite (Stdlib.Strings.String.compare_antisym k f).
  by destruct (Stdlib.Strings.String.compare f k).
Qed.

(** X6.  [erase(first, last)] with [first == last], a valid iterator of
    the dictionary or [end()], removes nothing and still adds 1 to the
    counter. *)
Theorem erase_empty_range_still_bumps h h' c s n it :
  stamp_ptr h c = Some (Some s) → counter h s = Some n →
  erase_range c it it h = Some h' →
  contents h' c = contents h c ∧ counter h' s = Some (n + 1).
Proof.
  intros Hp Hc E. unfold erase_range in E. inv_bind.
  rename select (mutate c h = _) into E1.
  rename select (map_assign _ _ _ = _) into E2.
  rename select (dicts _ !! c = _) into Hd.
  destruct (contents_map_assign _ _ _ _ E2) as [Hc' _].
  split.
  - rewrite Hc', <- (contents_mutate _ _ _ c E1). unfold contents.
    rewrite Hd; simpl. f_equal. apply map_filter_id.
    intros k v _. simpl. destruct it as [f|]; simpl; [|done].
    apply key_le_lt_false.
  - rewrite (counter_map_assign _ _ _ _ s E2). by eapply mutate_bumps.
Qed.



Lemma swap_dicts h h' a b :
  swap a b h = Some h' →
  ∃ da db, dicts h !! a = Some da ∧ dicts h !! b = Some db ∧
    dicts h' = <[b := mk_dict (map da) (_mutation_stamp db)]>
                 (<[a := mk_dict (map db) (_mutation_stamp da)]> (dicts h)).
Proof.
  intros E. unfold swap, map_assign in E. inv_bind. simplify_eq/=.
  rename select (mutate a h = _) into E1.
  rename select (mutate b _ = _) into E2.
  rename select (<[a := _]> _ !! b = Some _) into Hb'.
  rename select (dicts _ !! a = Some _) into Ha.
  rename select (dicts _ !! b = Some _) into Hb.
  apply dicts_mutate in E1, E2. rewrite E2, E1 in Ha, Hb, Hb' |- *.
  eexists _, _. split; [exact Ha|]. split; [exact Hb|].
  destruct (decide (a = b)) as [->|Hne].
  - rewrite lookup_insert_eq in Hb'. by simplify_eq/=.
  - rewrite lookup_insert_ne in Hb' by done. by simplify_eq/=.
Qed.

(** X9.  Two [swap] calls in a row on the same two dictionaries give every
    dictionary back its elements and its stamp pointer. *)
Theorem swap_twice_restores_dictionaries h h1 h2 a b :
  swap a b h = Some h1 → swap a b h1 = Some h2 → dicts h2 = dicts h.
Proof.
  intros (da & db & Ha & Hb & E1)%swap_dicts
         (da' & db' & Ha' & Hb' & E2)%swap_dicts.
  rewrite E2, E1. rewrite E1 in Ha', Hb'. apply map_eq. intros i.
  destruct (decide (a = b)) as [->|Hne].
  - rewrite Ha in Hb. injection Hb as <-.
    rewrite lookup_insert_eq in Ha', Hb'.
    injection Ha' as <-. injection Hb' as <-. simpl.
    destruct (decide (i = b)) as [->|].
    + rewrite lookup_insert_eq, Ha. f_equal. apply dict_eta.
    + by rewrite !lookup_insert_ne.
  - rewrite lookup_insert_eq in Hb'.
    rewrite lookup_insert_ne, lookup_insert_eq in Ha' by done.
    injection Ha' as <-. injection Hb' as <-. simpl.
    destruct (decide (i = b)) as [->|]; [|destruct (decide (i = a)) as [->|]].
    + rewrite lookup_insert_eq, Hb. f_equal. apply dict_eta.
    + rewrite lookup_insert_ne, lookup_insert_eq, Ha by done.
      f_equal. apply dict_eta.
    + by rewrite !lookup_insert_ne.
Qed.

(** X10.  When the key is absent, or present with the type of the slot,
    [set_default] leaves the slot and the map agreeing: a following
    [get_if_set] returns true with the value now in the slot, and a second
    [set_default], with whatever value, returns true with that same value
    and changes nothing. *)
Theorem set_default_then_get_if_set T key r r' (this : gmap string any) :
  (∀ a, this !! key = Some a → any_type a = T) →
  ∃ b v this',
    set_default hash_code T key (Some r) this = Some (b, Some v, this') ∧
    (b = false ↔ this !! key = None) ∧ (b = false → v = r) ∧
    get_if_set hash_code T key (Some r') this' = Some (true, Some v) ∧
    set_default hash_code T key (Some r') this' = Some (true, Some v, this').
Proof.
  intros HT. destruct (this !! key) as [a|] eqn:Ha.
  - specialize (HT a eq_refl) as <-.
    exists true, (any_value a), this.
    rewrite (set_default_match hash_code _ key r this a) by done.
    rewrite (set_default_match hash_code _ key r' this a) by done.
    split_and!; try done.
    unfold get_if_set. rewrite Ha; simpl.
    by rewrite Z.eqb_refl, (any_cast_same a).
  - exists false, r, (<[key := mk_any T r]> this).
    rewrite set_default_absent by done.
    rewrite (set_default_match hash_code T key r' _ (mk_any T r))
      by (by rewrite ?lookup_insert_eq).
    split_and!; try done.
    unfold get_if_set. rewrite lookup_insert_eq; simpl.
    by rewrite Z.eqb_refl, (any_cast_same (mk_any T r)).
Qed.

(** X11.  Whenever [set_default] returns with a slot that is not null, the
    key is in the map afterwards and every other key is as it was; when it
    returns true the map is unchanged. *)
Theorem set_default_leaves_key_present T key r (this this' : gmap string any)
    b out :
  set_default hash_code T key (Some r) this = Some (b, out, this') →
  has_key key this' = true ∧
  (∀ k, k ≠ key → this' !! k = this !! k) ∧
  (b = true → this' = this).
Proof.
  unfold set_default, has_key, map_insert. intros E.
  destruct (this !! key) as [a|] eqn:Ha.
  - destruct (hash_code (any_type a) =? hash_code T); inv_bind;
      simplify_eq; rewrite Ha; split_and!; try done;
      by apply bool_decide_eq_true.
  - simplify_eq. rewrite lookup_insert_eq.
    split; [by apply bool_decide_eq_true|].
    split; [|done]. intros k Hk. by rewrite lookup_insert_ne.
Qed.

(** ** Creation and destruction undo each other *)

(** X12.  Creating a stamp in owning mode and destroying it again gives
    back the store as it was; in between the stamp reads 1, owns an empty
    dictionary and the two point at each other. *)
Theorem owning_stamp_round_trip h h1 p c :
  new_owning_stamp p c h = Some h1 →
  counter h1 p = Some 1 ∧ is_owning h1 p = Some true ∧
  back_ref h1 p = Some (Some c) ∧ stamp_ptr h1 c = Some (Some p) ∧
  contents h1 c = Some ∅ ∧
  destroy_stamp p h1 = Some h.
Proof.
  intros E. unfold new_owning_stamp in E.
  destruct (stamps h !! p) eqn:Hp; simplify_eq.
  destruct (dicts h !! c) eqn:Hc; simplify_eq.
  unfold counter, is_owning, back_ref, stamp_ptr, contents; simpl.
  rewrite !lookup_insert_eq. split_and!; try done.
  unfold destroy_stamp; simpl. rewrite lookup_insert_eq; simpl.
  rewrite lookup_insert_eq; simpl.
  unfold destroy, dtor_body; simpl. rewrite lookup_insert_eq; simpl.
  rewrite insert_insert_eq, !delete_insert_id by done.
  by rewrite heap_eta.
Qed.

(** X13.  Creating the stamp of a dictionary that has none and destroying
    that stamp again gives back the store as it was. *)
Theorem attached_stamp_round_trip h h1 c p s :
  stamp_ptr h c = Some None →
  get_or_create_mutation_stamp c p h = Some (s, h1) →
  destroy_stamp s h1 = Some h.
Proof.
  intros (d & Hd & Hp)%fmap_Some E. unfold get_or_create_mutation_stamp in E.
  rewrite Hd in E; simpl in E. rewrite <- Hp in E.
  destruct (stamps h !! p) eqn:Hf; simplify_eq.
  unfold destroy_stamp; simpl. rewrite lookup_insert_eq; simpl.
  rewrite lookup_insert_eq; simpl.
  rewrite insert_insert_eq, delete_insert_id by done.
  rewrite Hp, dict_eta, insert_id by done. by rewrite heap_eta.
Qed.

(** X14.  Destroying a copy gives back the store as it was before the
    copy was made: the stamp of the original is not made a tombstone by
    the death of a copy. *)
Theorem copy_then_destroy_round_trip h h1 this other :
  copy_construct this other h = Some h1 → destroy this h1 = Some h.
Proof.
  intros E. unfold copy_construct in E. inv_bind.
  destruct (dicts h !! this) eqn:Hf; simplify_eq.
  unfold destroy, dtor_body; simpl. rewrite lookup_insert_eq; simpl.
  unfold release; simpl. rewrite delete_insert_id by done.
  by rewrite heap_eta.
Qed.

(** X15.  A dictionary that is relocated, that is copied to a new place
    after which the original is destroyed, leaves its stamp a tombstone;
    the dictionary at the new place holds the elements and has no stamp. *)
Theorem relocation_tombstones_stamp h h1 h2 old new s :
  stamp_ptr h old = Some (Some s) → is_Some (stamps h !! s) →
  copy_construct new old h = Some h1 → destroy old h1 = Some h2 →
  tombstoned h2 s ∧ contents h2 new = contents h old ∧
  stamp_ptr h2 new = Some None ∧ dicts h2 !! old = None.
Proof.
  intros (d & Hd & Hp)%fmap_Some [m Hm] E1 E2.
  unfold copy_construct in E1. rewrite Hd in E1; simpl in E1.
  destruct (dicts h !! new) eqn:Hf; simplify_eq.
  assert (old ≠ new) by congruence.
  unfold destroy, dtor_body in E2; simpl in E2.
  rewrite lookup_insert_ne, Hd in E2 by done; simpl in E2.
  rewrite <- Hp, Hm in E2; simplify_eq/=.
  unfold tombstoned, counter, back_ref, contents, stamp_ptr; simpl.
  rewrite !lookup_insert_eq, lookup_delete_eq.
  rewrite lookup_delete_ne, lookup_insert_eq by done.
  rewrite Hd. done.
Qed.

(** X16.  A dictionary and its stamp can be destroyed in either order.
    In attached mode both orders succeed and end in the same store, with
    both objects gone and nothing else changed.  In owning mode, where the
    stamp's destructor deletes the dictionary, destroying the dictionary
    first and the stamp afterwards ends in the store that destroying the
    stamp alone gives: the dictionary is not deleted twice. *)
Theorem destruction_order_is_irrelevant h c s ow :
  wf h → stamp_ptr h c = Some (Some s) → is_owning h s = Some ow →
  ∃ h', destroy c h ≫= destroy_stamp s = Some h' ∧
        (if ow then destroy_stamp s h
         else destroy_stamp s h ≫= destroy c) = Some h' ∧
        dicts h' = delete c (dicts h) ∧ stamps h' = delete s (stamps h).
Proof.
  intros W (d & Hd & Hp)%fmap_Some (m & Hm & ->)%fmap_Some.
  symmetry in Hp.
  destruct (wf_dict _ W _ _ _ Hd Hp) as (m' & Hm' & Hb). simplify_eq.
  exists (mk_heap (delete c (dicts h)) (delete s (stamps h))).
  split; [|split; [|done]].
  - unfold destroy, dtor_body. rewrite Hd; simpl. rewrite Hp, Hm; simpl.
    unfold destroy_stamp; simpl. rewrite lookup_insert_eq; simpl.
    by rewrite delete_insert_eq.
  - unfold destroy_stamp. rewrite Hm; simpl. rewrite Hb, Hd; simpl.
    destruct (owning m); simpl.
    + unfold destroy, dtor_body; simpl. rewrite lookup_insert_eq; simpl.
      by rewrite delete_insert_eq.
    + unfold destroy, dtor_body; simpl. rewrite lookup_insert_eq; simpl.
      unfold release; simpl. by rewrite delete_insert_eq.
Qed.

Lemma mutate_comm h a b :
  wf h → a ≠ b → mutate a h ≫= mutate b = mutate b h ≫= mutate a.
Proof.
  intros W Hab.
  assert (Hs : ∀ da db sa sb, dicts h !! a = Some da →
    dicts h !! b = Some db → _mutation_stamp da = Some sa →
    _mutation_stamp db = Some sb → sa ≠ sb).
  { intros da db sa sb Ha Hb Hpa Hpb ->. eauto using wf_one_dict. }
  unfold mutate.
  destruct (dicts h !! a) as [da|] eqn:Ha;
    destruct (dicts h !! b) as [db|] eqn:Hb; simpl; [| | |done].
  - destruct (_mutation_stamp da) as [sa|] eqn:Hpa;
      destruct (_mutation_stamp db) as [sb|] eqn:Hpb; simpl.
    + specialize (Hs da db sa sb eq_refl eq_refl Hpa Hpb).
      destruct (stamps h !! sa) as [ma|] eqn:Hma;
        destruct (stamps h !! sb) as [mb|] eqn:Hmb; simpl.
      * destruct (int64_incr (stamp ma)) as [na|] eqn:Hia;
          destruct (int64_incr (stamp mb)) as [nb|] eqn:Hib; simpl;
          rewrite ?Ha, ?Hb; simpl; rewrite ?Hpa, ?Hpb; simpl;
          rewrite ?lookup_insert_ne by done; rewrite ?Hma, ?Hmb; simpl;
          rewrite ?Hia, ?Hib; simpl; try done.
        unfold put_stamp; simpl. do 2 f_equal. by apply insert_insert_ne.
      * destruct (int64_incr (stamp ma)) as [na|]; simpl; [|done].
        rewrite Hb; simpl. rewrite Hpb; simpl.
        by rewrite lookup_insert_ne, Hmb.
      * destruct (int64_incr (stamp mb)) as [nb|]; simpl; [|done].
        rewrite Ha; simpl. rewrite Hpa; simpl.
        by rewrite lookup_insert_ne, Hma.
      * done.
    + destruct (stamps h !! sa) as [ma|] eqn:Hma; simpl;
        [destruct (int64_incr (stamp ma)) as [na|] eqn:Hi; simpl|];
        rewrite ?Ha, ?Hb; simpl; rewrite ?Hpa, ?Hpb; simpl;
        rewrite ?Hma; simpl; by rewrite ?Hi.
    + destruct (stamps h !! sb) as [mb|] eqn:Hmb; simpl;
        [destruct (int64_incr (stamp mb)) as [nb|] eqn:Hi; simpl|];
        rewrite ?Ha, ?Hb; simpl; rewrite ?Hpa, ?Hpb; simpl;
        rewrite ?Hmb; simpl; by rewrite ?Hi.
    + rewrite Ha, Hb; simpl. by rewrite Hpa, Hpb.
  - destruct (_mutation_stamp da) as [sa|]; simpl; [|by rewrite Hb].
    destruct (stamps h !! sa) as [ma|]; simpl; [|done].
    destruct (int64_incr (stamp ma)); simpl; [|done]. by rewrite Hb.
  - destruct (_mutation_stamp db) as [sb|]; simpl; [|by rewrite Ha].
    destruct (stamps h !! sb) as [mb|]; simpl; [|done].
    destruct (int64_incr (stamp mb)); simpl; [|done]. by rewrite Ha.
Qed.

(** X17.  [a.swap(b)] and [b.swap(a)] are the same call: they succeed on
    the same stores and end in the same store. *)
Theorem swap_is_symmetric h a b : wf h → swap a b h = swap b a h.
Proof.
  intros W. destruct (decide (a = b)) as [->|Hab]; [done|].
  pose proof (mutate_comm h a b W Hab) as M. unfold swap.
  destruct (mutate a h) as [h1|]; destruct (mutate b h) as [h1'|];
    simpl in *; [| |by rewrite <- M|done].
  2: { by rewrite M. }
  destruct (mutate b h1) as [h2|]; destruct (mutate a h1') as [h2'|];
    simpl in *; try done.
  injection M as <-. unfold map_assign.
  destruct (dicts h2 !! a) as [da|] eqn:Ha;
    destruct (dicts h2 !! b) as [db|] eqn:Hb; simpl; try done.
  rewrite !lookup_insert_ne by done. rewrite Ha, Hb; simpl.
  unfold put_dict; simpl. do 2 f_equal. by apply insert_insert_ne.
Qed.

End MoreProperties.

(** * Properties of the conversions of the bindings *)

Lemma string_compare_refl s : Stdlib.Strings.String.compare s s = Eq.
Proof.
  pose proof (Stdlib.Strings.String.compare_antisym s s) as H.
  by destruct (Stdlib.Strings.String.compare s s).
Qed.

(** X18.  [compare_typeids] holds exactly when the two names are the same
    string: the comparison of the pointers never changes the answer, and
    the function is an equivalence on [std::type_info] objects. *)
Theorem compare_typeids_is_name_equality c_str lhs rhs :
  compare_typeids c_str lhs rhs = true ↔ c_str (name lhs) = c_str (name rhs).
Proof.
  unfold compare_typeids, strcmp. rewrite orb_true_iff. split.
  - intros [Hp%Pos.eqb_eq | Hs%Z.eqb_eq]; [by rewrite Hp|].
    apply Stdlib.Strings.String.compare_eq_iff.
    by destruct (Stdlib.Strings.String.compare _ _).
  - intros ->. right. by rewrite string_compare_refl.
Qed.

(** X19.  A Python integer becomes an [int32_t] when it fits one, else an
    [int64_t] when it fits one, else a [uint64_t] when it is below 2^64;
    any other integer ends in the [runtime_error].  The value is kept, and
    the result is never a [uint32_t]: that attempt cannot succeed where
    the [int64_t] one has failed. *)
Theorem py_int_conversion_by_range o :
  (int_min int32_t ≤ o ≤ int_max int32_t →
   py_to_any2_int o = Returns (mk_any int32_t o)) ∧
  (int_min int64_t ≤ o < int_min int32_t ∨
   int_max int32_t < o ≤ int_max int64_t →
   py_to_any2_int o = Returns (mk_any int64_t o)) ∧
  (int_max int64_t < o ≤ int_max uint64_t →
   py_to_any2_int o = Returns (mk_any uint64_t o)) ∧
  (o < int_min int64_t ∨ int_max uint64_t < o →
   py_to_any2_int o = Throws runtime_error) ∧
  (∀ v, py_to_any2_int o ≠ Returns (mk_any uint32_t v)).
Proof.
  unfold py_to_any2_int, py_to_any3_int, try_return.
  repeat case_decide; simpl in *; split_and!; intros; try done;
    unfold int_min, int_max in *; lia.
Qed.

Section PyDictProperties.
Context {type_info payload py_object : Type}.
Variable isinstance_str : py_object → bool.
Variable cast_string : py_object → string.
Variable py_to_any2 : py_object → outcome (@any type_info payload).

Lemma py_to_any3_dict_loop_converts o kvs :
  Forall2 (converts isinstance_str cast_string py_to_any2) o kvs → ∀ d,
  py_to_any3_dict_loop isinstance_str cast_string py_to_any2 o d
  = Returns (foldl (λ d kv, <[kv.1 := kv.2]> d) d kvs).
Proof.
  induction 1 as [|it kv o kvs (Hs & Hk & Hv) _ IH]; intros d; simpl; [done|].
  by rewrite Hs, Hv, Hk, IH.
Qed.

Lemma foldl_insert_list_to_map (kvs : list (string * @any type_info payload)) :
  foldl (λ d kv, <[kv.1 := kv.2]> d) (∅ : gmap string any) kvs
  = list_to_map (reverse kvs).
Proof.
  induction kvs as [|[k v] kvs IH] using rev_ind; [done|].
  by rewrite foldl_snoc, reverse_snoc, list_to_map_cons, IH.
Qed.

(** X20.  When every key of the [dict] is a [str] and every value
    converts, the function returns a dictionary without a stamp that holds
    exactly the converted keys, each with the converted value of the last
    item that has it; an empty [dict] gives an empty dictionary. *)
Theorem py_dict_converts_all_items o kvs :
  Forall2 (converts isinstance_str cast_string py_to_any2) o kvs →
  py_to_any3_dict isinstance_str cast_string py_to_any2 o
  = Returns (mk_dict (list_to_map (reverse kvs)) None).
Proof.
  intros H. unfold py_to_any3_dict.
  by rewrite (py_to_any3_dict_loop_converts o kvs H), foldl_insert_list_to_map.
Qed.

(** X21.  The first item that does not convert decides how the function
    ends: a key that is not a [str] gives [value_error], whatever its
    value and the items after it are; a [str] key whose value fails to
    convert passes that exception on. *)
Theorem py_dict_first_failure_decides pre kvs it post :
  Forall2 (converts isinstance_str cast_string py_to_any2) pre kvs →
  (isinstance_str it.1 = false →
   py_to_any3_dict isinstance_str cast_string py_to_any2 (pre ++ it :: post)
   = Throws value_error) ∧
  (∀ e, isinstance_str it.1 = true → py_to_any2 it.2 = Throws e →
   py_to_any3_dict isinstance_str cast_string py_to_any2 (pre ++ it :: post)
   = Throws e).
Proof.
  intros H. unfold py_to_any3_dict.
  assert (L : ∀ d,
    py_to_any3_dict_loop isinstance_str cast_string py_to_any2
      (pre ++ it :: post) d
    = py_to_any3_dict_loop isinstance_str cast_string py_to_any2
      (it :: post) (foldl (λ d kv, <[kv.1 := kv.2]> d) d kvs)).
  { induction H as [|it' kv pre kvs (Hs & Hk & Hv) _ IH]; intros d; simpl;
      [done|]. by rewrite Hs, Hv, Hk, IH. }
  rewrite L; simpl. split.
  - by intros ->.
  - intros e -> ->. done.
Qed.

End PyDictProperties.

Section DispatchProperties.
Context {any_t py_object : Type}.
Variable type_of : any_t → addr.
Variable type_name : addr → string.

Abbreviation handler_t := (@handler any_t py_object).
Abbreviation dispatch := (@dispatch any_t py_object).
Implicit Types (entries : list (addr * handler_t)).

Lemma any_to_py_hit a top_level (t : gmap positive handler_t)
    (n : gmap string handler_t) (e : handler_t) :
  t !! type_of a = Some e →
  any_to_py type_of type_name a top_level (mk_dispatch t n)
  = (e a top_level, mk_dispatch t n).
Proof. intros Hp. unfold any_to_py, handler in *; cbn. by rewrite !Hp. Qed.

Lemma any_to_py_fallback a top_level (t : gmap positive handler_t)
    (n : gmap string handler_t) (e : handler_t) :
  t !! type_of a = None → n !! type_name (type_of a) = Some e →
  any_to_py type_of type_name a top_level (mk_dispatch t n)
  = (e a top_level, mk_dispatch (<[type_of a := e]> t) n).
Proof.
  intros Hp Hn. unfold any_to_py, handler in *; cbn. rewrite !Hp, !Hn.
  by rewrite lookup_insert_eq.
Qed.

Lemma any_to_py_miss a top_level (t : gmap positive handler_t)
    (n : gmap string handler_t) :
  t !! type_of a = None → n !! type_name (type_of a) = None →
  any_to_py type_of type_name a top_level (mk_dispatch t n)
  = (Throws value_error, mk_dispatch t n).
Proof.
  intros Hp Hn. unfold any_to_py, handler in *; cbn. by rewrite !Hp, !Hn, !Hp.
Qed.


Lemma foldl_insert_lookup_Some {K V E : Type} `{Countable K}
    (k : E → K) (v : E → V) (l : list E) : ∀ (m : gmap K V) i x,
  foldl (λ m e, <[k e := v e]> m) m l !! i = Some x →
  (∃ e, e ∈ l ∧ k e = i ∧ v e = x) ∨ m !! i = Some x.
Proof.
  induction l as [|e l IH]; simpl; intros m i x Hl; [by right|].
  destruct (IH _ _ _ Hl) as [(e' & He' & ? & ?) | Hm].
  - left. exists e'. split; [by apply elem_of_cons; right | done].
  - apply lookup_insert_Some in Hm as [[? ?] | [? ?]]; [|by right].
    left. exists e. split; [by apply elem_of_cons; left | done].
Qed.

Lemma foldl_insert_is_Some {K V E : Type} `{Countable K}
    (k : E → K) (v : E → V) (l : list E) : ∀ (m : gmap K V) e,
  e ∈ l ∨ is_Some (m !! k e) →
  is_Some (foldl (λ m e, <[k e := v e]> m) m l !! k e).
Proof.
  induction l as [|e' l IH]; simpl; intros m e [He | Hm].
  - by apply elem_of_nil in He.
  - done.
  - apply IH. apply elem_of_cons in He as [-> | He]; [right | by left].
    by rewrite lookup_insert_eq.
  - apply IH. right. destruct (decide (k e' = k e)) as [->|].
    + by rewrite lookup_insert_eq.
    + by rewrite lookup_insert_ne.
Qed.

Lemma built_table entries p f :
  _py_cast_dispatch_table (built type_name entries) !! p = Some f → (p, f) ∈ entries.
Proof.
  unfold built; simpl. intros Hl.
  apply (foldl_insert_lookup_Some fst snd) in Hl
    as [([p' f'] & He & ? & ?) | Hl]; by simplify_eq/=.
Qed.

Lemma built_by_name entries n f :
  _py_cast_dispatch_table_by_name (built type_name entries) !! n = Some f →
  ∃ p, (p, f) ∈ entries ∧ type_name p = n.
Proof.
  unfold built; simpl. intros Hl.
  apply (foldl_insert_lookup_Some (λ e, type_name e.1) snd) in Hl
    as [([p' f'] & He & ? & ?) | Hl]; simplify_eq/=.
  rewrite merge_sort_Permutation in He.
  apply elem_of_map_to_list in He. exists p'. split; [|done].
  by apply built_table.
Qed.

Lemma built_has_name entries p f :
  (p, f) ∈ entries →
  is_Some (_py_cast_dispatch_table_by_name (built type_name entries) !! type_name p).
Proof.
  intros He.
  assert (is_Some (_py_cast_dispatch_table (built type_name entries) !! p)) as [f0 Hf0].
  { unfold built; simpl.
    apply (foldl_insert_is_Some fst snd entries ∅ (p, f)). by left. }
  unfold built; simpl.
  apply (foldl_insert_is_Some (λ e, type_name e.1) snd _ ∅ (p, f0)). left.
  rewrite merge_sort_Permutation. by apply elem_of_map_to_list.
Qed.

(** X23.  After the tables are built, a value whose type has the name of
    a registered type is converted by a handler registered under that
    name, also when its [std::type_info] object is at another address
    than the registered one; that handler is then in the table by
    pointer. *)
Theorem built_tables_dispatch_by_name entries a top_level p f :
  (p, f) ∈ entries → type_name (type_of a) = type_name p →
  ∃ p' f', (p', f') ∈ entries ∧ type_name p' = type_name p ∧
    let r := any_to_py type_of type_name a top_level
               (built type_name entries) in
    r.1 = f' a top_level ∧
    _py_cast_dispatch_table r.2 !! type_of a = Some f'.
Proof.
  intros He Hn.
  pose proof (built_table entries) as Ht.
  pose proof (built_by_name entries) as Hbn.
  pose proof (built_has_name entries p f He) as [e Hx].
  rewrite <- Hn in Hx.
  destruct (built type_name entries) as [t n]; cbn in *.
  destruct (t !! type_of a) as [e'|] eqn:Hp.
  - exists (type_of a), e'. rewrite (any_to_py_hit _ _ _ _ _ Hp); cbn.
    split; [by apply Ht|]. done.
  - destruct (Hbn _ _ Hx) as (p' & Hp' & Hn').
    exists p', e. rewrite (any_to_py_fallback _ _ _ _ _ Hp Hx); cbn.
    rewrite lookup_insert_eq. split; [done|]. split; [congruence | done].
Qed.

(** X24.  After the tables are built, a value whose type has the name of
    no registered type ends in [value_error], and the tables are as they
    were. *)
Theorem built_tables_reject_unknown_type entries a top_level :
  (∀ e, e ∈ entries → type_name e.1 ≠ type_name (type_of a)) →
  any_to_py type_of type_name a top_level (built type_name entries)
  = (Throws value_error, built type_name entries).
Proof.
  intros Hno.
  pose proof (built_table entries) as Ht.
  pose proof (built_by_name entries) as Hbn.
  destruct (built type_name entries) as [t n]; cbn in *.
  destruct (t !! type_of a) as [e|] eqn:Hp.
  { apply Ht in Hp. by destruct (Hno _ Hp). }
  destruct (n !! type_name (type_of a)) as [e|] eqn:Hx.
  { apply Hbn in Hx as (p' & Hp' & Hn'). by destruct (Hno _ Hp'). }
  by apply any_to_py_miss.
Qed.

End DispatchProperties.

(** * The further properties on concrete inputs *)

Lemma reachable_store_is_linked_witness :
  back_ref demo_heap 10 = Some (Some 1%positive).
Proof.
  destruct (reachable_store_is_linked cpp_hash demo_setup demo_heap)
    as (L & _).
  - vm_compute; reflexivity.
  - apply L. vm_compute; reflexivity.
Defined.

Lemma reachable_counter_is_valid_witness :
  (1 = -1 ∧ back_ref demo_heap 10 = Some None) ∨
  (1 ≤ 1 ≤ INT64_MAX ∧ ∃ c, back_ref demo_heap 10 = Some (Some c)).
Proof.
  apply (reachable_counter_is_valid cpp_hash demo_setup demo_heap 10 1).
  - vm_compute; reflexivity.
  - vm_compute; reflexivity.
Defined.

Lemma counter_only_grows_witness :
  ∃ n', counter demo_self_swap 10 = Some n' ∧
        (n' = 1 ∨ n' = 1 + 1 ∨ n' = 1 + 2 ∨ n' = -1).
Proof.
  apply (counter_only_grows cpp_hash (Swap 1 1) demo_heap demo_self_swap 10 1).
  - apply wf_build.
  - vm_compute; reflexivity.
  - reflexivity.
  - vm_compute; reflexivity.
Defined.


Lemma erase_key_counts_and_bumps_witness :
  ∃ k h', erase_key 1 "zz" demo_heap = Some (k, h') ∧ k = 0%nat ∧
          contents h' 1 = Some demo_map ∧ counter h' 10 = Some 2.
Proof.
  destruct (erase_key 1 "zz" demo_heap) as [[k h']|] eqn:E;
    [|by vm_compute in E].
  destruct (erase_key_counts_and_bumps demo_heap h' 1 10 1 demo_map "zz" k)
    as (Hk & _ & Hm & Hc); [vm_compute; reflexivity.. | exact E |].
  exists k, h'. split; [reflexivity|]. split; [exact Hk|].
  split; [apply Hm; vm_compute; reflexivity | exact Hc].
Defined.

Lemma erase_empty_range_still_bumps_witness :
  ∃ h', erase_range 1 (Some "a") (Some "a") demo_heap = Some h' ∧
        contents h' 1 = contents demo_heap 1 ∧ counter h' 10 = Some 2.
Proof.
  destruct (erase_range 1 (Some "a") (Some "a") demo_heap) as [h'|] eqn:E;
    [|by vm_compute in E].
  destruct (erase_empty_range_still_bumps demo_heap h' 1 10 1 (Some "a"))
    as (Hm & Hc); [vm_compute; reflexivity.. | exact E |].
  exists h'. split; [reflexivity|]. split; [exact Hm | exact Hc].
Defined.



Lemma swap_twice_restores_dictionaries_witness :
  ∃ h2, swap 1 2 demo_swapped = Some h2 ∧ dicts h2 = dicts demo_heap.
Proof.
  destruct (swap 1 2 demo_swapped) as [h2|] eqn:E; [|by vm_compute in E].
  exists h2. split; [reflexivity|].
  apply (swap_twice_restores_dictionaries demo_heap demo_swapped h2 1 2);
    [vm_compute; reflexivity | exact E].
Defined.

Lemma set_default_then_get_if_set_witness :
  ∃ v, get_if_set cpp_hash t_int64 "a" (Some (v_int64 0)) demo_map
       = Some (true, Some v).
Proof.
  destruct (set_default_then_get_if_set cpp_hash t_int64 "a" (v_int64 9)
              (v_int64 0) demo_map) as (b & v & this' & E & _ & _ & G & _).
  - intros a Ha. vm_compute in Ha. injection Ha as <-. reflexivity.
  - assert (this' = demo_map) as ->.
    { vm_compute in E. by injection E as _ _ <-. }
    exists v. exact G.
Defined.

Lemma set_default_leaves_key_present_witness :
  ∃ this', set_default cpp_hash t_bool "b" (Some (v_bool true)) demo_map
           = Some (false, Some (v_bool true), this') ∧
           has_key "b" this' = true.
Proof.
  destruct (set_default cpp_hash t_bool "b" (Some (v_bool true)) demo_map)
    as [[[b out] this']|] eqn:E; [|by vm_compute in E].
  destruct (set_default_leaves_key_present cpp_hash _ _ _ _ _ _ _ E)
    as (Hk & _).
  assert (b = false ∧ out = Some (v_bool true)) as [-> ->].
  { vm_compute in E. by injection E as <- <- _. }
  exists this'. split; [reflexivity | exact Hk].
Defined.

Lemma owning_stamp_round_trip_witness :
  ∃ h1, new_owning_stamp 30 3 demo_heap = Some h1 ∧
        destroy_stamp 30 h1 = Some demo_heap.
Proof.
  destruct (new_owning_stamp 30 3 demo_heap) as [h1|] eqn:E;
    [|by vm_compute in E].
  exists h1. split; [reflexivity|].
  by destruct (owning_stamp_round_trip demo_heap h1 30 3 E)
    as (_ & _ & _ & _ & _ & R).
Defined.

Lemma attached_stamp_round_trip_witness :
  ∃ h1, get_or_create_mutation_stamp 1 10 (build cpp_hash (take 3 demo_setup))
        = Some (10%positive, h1) ∧
        destroy_stamp 10 h1 = Some (build cpp_hash (take 3 demo_setup)).
Proof.
  destruct (get_or_create_mutation_stamp 1 10
              (build cpp_hash (take 3 demo_setup))) as [[s h1]|] eqn:E;
    [|by vm_compute in E].
  assert (s = 10%positive) as ->.
  { pose proof E as E'. vm_compute in E'. by injection E' as <- _. }
  exists h1. split; [reflexivity|].
  apply (attached_stamp_round_trip _ h1 1 10 10); [|exact E].
  vm_compute; reflexivity.
Defined.

Lemma copy_then_destroy_round_trip_witness :
  ∃ h1, copy_construct 5 1 demo_heap = Some h1 ∧
        destroy 5 h1 = Some demo_heap.
Proof.
  destruct (copy_construct 5 1 demo_heap) as [h1|] eqn:E;
    [|by vm_compute in E].
  exists h1. split; [reflexivity|].
  exact (copy_then_destroy_round_trip demo_heap h1 5 1 E).
Defined.

Lemma relocation_tombstones_stamp_witness :
  ∃ h1 h2, copy_construct 5 1 demo_heap = Some h1 ∧
           destroy 1 h1 = Some h2 ∧ tombstoned h2 10 ∧
           stamp_ptr h2 5 = Some None.
Proof.
  destruct (copy_construct 5 1 demo_heap) as [h1|] eqn:E1;
    [|by vm_compute in E1].
  destruct (destroy 1 h1) as [h2|] eqn:E2.
  2: { exfalso. vm_compute in E1. injection E1 as <-. by vm_compute in E2. }
  destruct (relocation_tombstones_stamp demo_heap h1 h2 1 5 10)
    as (T & _ & P & _);
    [vm_compute; reflexivity | by eexists; vm_compute | exact E1 | exact E2 |].
  exists h1, h2. split; [reflexivity|]. split; [exact E2|].
  split; [exact T | exact P].
Defined.

Lemma destruction_order_is_irrelevant_witness :
  ∃ h', destroy 1 demo_heap ≫= destroy_stamp 10 = Some h' ∧
        destroy_stamp 10 demo_heap ≫= destroy 1 = Some h'.
Proof.
  destruct (destruction_order_is_irrelevant demo_heap 1 10 false)
    as (h' & E1 & E2 & _).
  - apply wf_build.
  - vm_compute; reflexivity.
  - vm_compute; reflexivity.
  - exists h'. split; [exact E1 | exact E2].
Defined.

Lemma swap_is_symmetric_witness : swap 1 2 demo_heap = swap 2 1 demo_heap.
Proof. apply swap_is_symmetric, wf_build. Defined.

Lemma py_dict_converts_all_items_witness :
  py_to_any3_dict demo_isinstance_str demo_cast_string demo_py_to_any2
    demo_dict
  = Returns (mk_dict (list_to_map (reverse demo_dict_converted)) None).
Proof.
  apply py_dict_converts_all_items.
  repeat constructor; vm_compute; reflexivity.
Defined.

Lemma py_dict_first_failure_decides_witness :
  py_to_any3_dict demo_isinstance_str demo_cast_string demo_py_to_any2
    (demo_dict ++ (py_int 7, py_int 1) :: [(py_str "c", py_none)])
  = Throws value_error.
Proof.
  destruct (py_dict_first_failure_decides demo_isinstance_str
              demo_cast_string demo_py_to_any2 demo_dict demo_dict_converted
              (py_int 7, py_int 1) [(py_str "c", py_none)]) as [V _].
  - repeat constructor; vm_compute; reflexivity.
  - apply V. reflexivity.
Defined.

Lemma built_tables_dispatch_by_name_witness :
  ∃ f', (any_to_py id demo_type_name 5%positive true
           (built demo_type_name demo_entries)).1 = f' 5%positive true ∧
        _py_cast_dispatch_table
          (any_to_py id demo_type_name 5%positive true
             (built demo_type_name demo_entries)).2 !! 5%positive = Some f'.
Proof.
  destruct (built_tables_dispatch_by_name id demo_type_name demo_entries
              5%positive true 1%positive (λ _ _, Returns 100%nat))
    as (p' & f' & _ & _ & R & C).
  - apply elem_of_cons. by left.
  - reflexivity.
  - exists f'. split; [exact R | exact C].
Defined.

Lemma built_tables_reject_unknown_type_witness :
  any_to_py id demo_type_name 9%positive false
    (built demo_type_name demo_entries)
  = (Throws value_error, built demo_type_name demo_entries).
Proof.
  apply built_tables_reject_unknown_type.
  intros e He. unfold demo_entries in He.
  repeat (apply elem_of_cons in He as [-> | He]; [simpl; discriminate|]).
  by apply elem_of_nil in He.
Defined.
